(** * Bloom gateway client: partitioning, fan-out and merge

    A shallow embedding of [pkg/bloomgateway/client.go]: the union-merge of
    chunk references ([mergeChunkSets]), the merge of the per-shard
    responses ([mergeSeries]), the ordered-fallback helper ([doForAddrs])
    and the exported operation ([FilterChunks]). *)

From Stdlib Require Import ZArith Lia.
From stdpp Require Import gmap strings list sorting.

Local Open Scope Z_scope.

(** ** Sorting primitives of the Go standard library

    [sort.Slice] and [slices.SortFunc] sort in place and promise no
    stability: which of two elements with equal keys comes first is not
    fixed.  Both are modelled by the same insertion sort, which is one of
    the sorts they may be.  The statements below do not depend on the
    choice: of a slice that has been sorted they say that it is sorted
    and a permutation of what it was, or they speak of keys and of
    membership only. *)

Section GoSort.
Context {E : Type}.
Variable less : E -> E -> bool.

Fixpoint sort_insert (a : E) (l : list E) : list E :=
  match l with
  | [] => [a]
  | b :: t => if less b a then b :: sort_insert a t else a :: b :: t
  end.

(** [sort.Slice(x, less)] *)
Fixpoint sort_Slice (x : list E) : list E :=
  match x with
  | [] => []
  | a :: t => sort_insert a (sort_Slice t)
  end.

(** The loop of [slices.IsSortedFunc]: no element is less than its
    predecessor. *)
Fixpoint isSorted (x : list E) : bool :=
  match x with
  | a :: (b :: _) as t => negb (less b a) && isSorted t
  | _ => true
  end.
End GoSort.

(** Ascending order of a key. *)
Definition key_le {E : Type} (key : E -> Z) (a b : E) : Prop := key a <= key b.

(** [slices.IsSortedFunc(x, cmp)] and [slices.SortFunc(x, cmp)]: [cmp]
    returns a negative number when its first argument is the smaller. *)
Definition slices_IsSortedFunc {E : Type} (x : list E) (cmp : E -> E -> Z) : bool :=
  isSorted (fun a b => cmp a b <? 0) x.

Definition slices_SortFunc {E : Type} (x : list E) (cmp : E -> E -> Z) : list E :=
  sort_Slice (fun a b => cmp a b <? 0) x.

(** ** Iterators of [pkg/storage/bloom/v1]

    An iterator is represented by the finite sequence of items it still
    has to yield: [Next] drops the head, [At] and [Peek] read it. *)

Section Iterators.
Context {A B : Type}.

(** Modelled from the spec: [v1.NewSliceIter] is missing from the
    sources; it yields the elements of a slice in order. *)
Definition v1_NewSliceIter (s : list A) : list A := s.

(** Modelled from the spec: [v1.NewPeekingIter] is missing from the
    sources; it is the look-ahead adapter of step 1 of the merge and
    yields what the wrapped iterator yields. *)
Definition v1_NewPeekingIter (itr : list A) : list A := itr.

(** Modelled from the spec: [v1.Identity] is missing from the sources;
    it is the conversion applied to the first element of a run. *)
Definition v1_Identity (a : A) : A := a.

Variable less : A -> A -> bool.

(** Modelled from the spec: one [Next] of the heap iterator, which is
    missing from the sources.  The source whose head is smallest yields
    its head (the leftmost such source, the spec leaving the order among
    equal keys open); exhausted sources leave the heap. *)
Fixpoint heap_pop (itrs : list (list A)) : option (A * list (list A)) :=
  match itrs with
  | [] => None
  | [] :: rest => heap_pop rest
  | (x :: xs) :: rest =>
      match heap_pop rest with
      | Some (y, rest') =>
          if less y x then Some (y, (x :: xs) :: rest') else Some (x, xs :: rest)
      | None => Some (x, [xs])
      end
  end.

(** Modelled from the spec: the stream of the heap iterator, [Next] after
    [Next]. *)
Fixpoint heap_drain (fuel : nat) (itrs : list (list A)) : list A :=
  match fuel with
  | O => []
  | S fuel' =>
      match heap_pop itrs with
      | Some (x, itrs') => x :: heap_drain fuel' itrs'
      | None => []
      end
  end.

(** Modelled from the spec: [v1.NewHeapIterator] is missing from the
    sources; it merges the sources through a min-heap keyed by [less]
    into one ascending stream, equal keys being emitted consecutively
    and not yet merged.  Every [Next] consumes one element, so the
    number of elements is fuel enough. *)
Definition v1_NewHeapIterator (itrs : list (list A)) : list A :=
  heap_drain (length (concat itrs)) itrs.

Variable eq : A -> B -> bool.
Variable from : A -> B.
Variable merge : A -> B -> B.

(** Modelled from the spec: one run of the deduplicating stage, which is
    missing from the sources.  [tmp] holds the entry being built, [itr]
    the rest of the merged stream; an entry equal to [tmp] is merged into
    it, the newcomer being the first argument of [merge]. *)
Fixpoint dedupe_next (tmp : B) (itr : list A) : list B :=
  match itr with
  | [] => [tmp]
  | next :: rest =>
      if eq next tmp then dedupe_next (merge next tmp) rest
      else tmp :: dedupe_next (from next) rest
  end.

(** Modelled from the spec: [v1.NewDedupingIter] is missing from the
    sources; it scans the merged stream and, whenever consecutive
    entries are equal under [eq], combines them pairwise with [merge],
    the first entry of a run being converted with [from]. *)
Definition v1_NewDedupingIter (itr : list A) : list B :=
  match itr with
  | [] => []
  | first :: rest => dedupe_next (from first) rest
  end.
End Iterators.

(** ** Errors

    Go's [error] interface: [None] is the nil error.  [Wrapf] is
    [errors.Wrapf] with its format already applied. *)
Inductive error : Type :=
| errors_New (msg : string)
| errors_Wrapf (cause : error) (msg : string).

(** A Go call returning [(value, error)]. *)
Inductive result (T : Type) : Type :=
| Ok (v : T)
| Err (e : error).
Arguments Ok {T} v.
Arguments Err {T} e.

Definition math_MaxUint64 : Z := 2 ^ 64 - 1.

(** Modelled from the spec: [v1.CollectInto] is missing from the sources;
    it appends what the iterator yields to the buffer it is given and
    reports no error for iterators over slices. *)
Definition v1_CollectInto {T : Type} (itr : list T) (into : list T) : list T * option error :=
  (into ++ itr, None).

(** Labels of the [clientRequests] counter. *)
Inductive requestType : Type := typeSuccess | typeError.

(** ** The configuration of the client

    The configurations of the pool, of the gRPC client and of the cache
    are declared elsewhere; of each only its [Validate] method is used,
    taken as it answers. *)
Section Config.
Variables PoolConfigT GRPCConfigT CacheConfigT : Type.
Variable PoolConfig_Validate : PoolConfigT -> option error.
Variable GRPCConfig_Validate : GRPCConfigT -> option error.
Variable CacheConfig_Validate : CacheConfigT -> option error.

Record ClientConfig : Type := mkClientConfig {
  PoolConfig : PoolConfigT;
  GRPCClientConfig : GRPCConfigT;
  Cache : CacheConfigT;
  CacheResults : bool;
  Addresses : string
}.

(** [errors.Wrap] *)
Definition errors_Wrap (err : error) (msg : string) : error :=
  errors_Wrapf err msg.

(** [(i *ClientConfig) Validate()] *)
Definition Validate (i : ClientConfig) : option error :=
  match GRPCConfig_Validate (GRPCClientConfig i) with
  | Some err => Some (errors_Wrap err "grpc client config")
  | None =>
      match PoolConfig_Validate (PoolConfig i) with
      | Some err => Some (errors_Wrap err "pool config")
      | None =>
          match (if CacheResults i then CacheConfig_Validate (Cache i) else None) with
          | Some err => Some (errors_Wrap err "cache config")
          | None =>
              if String.eqb (Addresses i) ""
              then Some (errors_New "addresses requires a list of comma separated strings in DNS service discovery format with at least one item")
              else None
          end
      end
  end.
End Config.

(** ** Values to run the client on

    Chunk references taken to be integers, with the comparison a [Cmp]
    method would compute, and a [getFirstLast] that answers [zero] on an
    empty slice. *)
Definition zref_Cmp (a b : Z) : Z :=
  match a ?= b with Lt => -1 | Eq => 0 | Gt => 1 end.

Definition getFirstLast_or {T : Type} (zero : T) (s : list T) : T * T :=
  (default zero (head s), default zero (last s)).

Section Client.

(** *** The protobuf types

    [logproto.ShortRef] is declared outside this file; only its methods
    [Equal], [Less] and [Cmp] are used here. *)
Variable ShortRef : Type.
Variable Equal Less : ShortRef -> ShortRef -> bool.
Variable Cmp : ShortRef -> ShortRef -> Z.

(** [plan.QueryPlan] is passed through untouched. *)
Variable QueryPlan : Type.

(** [logproto.GroupedChunkRefs]; [Fingerprint] is a [uint64], only ever
    compared. *)
Record GroupedChunkRefs : Type := mkGroup {
  Fingerprint : Z;
  Tenant : string;
  Refs : list ShortRef
}.

(** mergeChunkSets merges and deduplicates two sorted slices of
    shortRefs.  The two indices of the loop are the two lists still to
    be read; what the loop appends to [result] is consed in front. *)
Fixpoint mergeChunkSets (s1 s2 : list ShortRef) {struct s1} : list ShortRef :=
  match s1 with
  | [] => s2
  | a :: t1 =>
      (fix scan (s2 : list ShortRef) {struct s2} : list ShortRef :=
         match s2 with
         | [] => a :: t1
         | b :: t2 =>
             if Equal a b then a :: mergeChunkSets t1 t2
             else if Less a b then a :: mergeChunkSets t1 (b :: t2)
             else b :: scan t2
         end) s2
  end.

(** The [merge] closure of [mergeSeries]: either side is sorted first
    when it is not sorted yet. *)
Definition mergeSeries_merge (a b : GroupedChunkRefs) : GroupedChunkRefs :=
  let aRefs := if negb (slices_IsSortedFunc (Refs a) Cmp)
               then slices_SortFunc (Refs a) Cmp else Refs a in
  let bRefs := if negb (slices_IsSortedFunc (Refs b) Cmp)
               then slices_SortFunc (Refs b) Cmp else Refs b in
  {| Fingerprint := Fingerprint a;
     Tenant := Tenant a;
     Refs := mergeChunkSets aRefs bRefs |}.

(** The closures [a.Fingerprint < b.Fingerprint] and
    [a.Fingerprint == b.Fingerprint] given to the sort and to the
    iterators. *)
Definition fp_less (a b : GroupedChunkRefs) : bool :=
  Fingerprint a <? Fingerprint b.

Definition fp_eq (a b : GroupedChunkRefs) : bool :=
  Fingerprint a =? Fingerprint b.

(** mergeSeries combines responses from multiple FilterChunkRefs calls
    and deduplicates chunks from series that appear in multiple
    responses. *)
Definition mergeSeries (input : list (list GroupedChunkRefs))
    (buf : list GroupedChunkRefs) : list GroupedChunkRefs * option error :=
  let buf := take 0 buf in
  let iters :=
    map (fun inp => v1_NewPeekingIter (v1_NewSliceIter (sort_Slice fp_less inp)))
        input in
  let heapIter := v1_NewHeapIterator fp_less iters in
  let dedupeIter :=
    v1_NewDedupingIter fp_eq v1_Identity mergeSeries_merge
      (v1_NewPeekingIter heapIter) in
  v1_CollectInto dedupeIter buf.

(** *** The client and what it talks to *)

(** [blockWithSeries]: [block] stands for [block.String()], the only
    use the client makes of the block reference. *)
Record blockWithSeries : Type := mkBlockWithSeries {
  block : string;
  series : list GroupedChunkRefs
}.

(** [bloomshipper.Interval]; [End_] is its field [End]. *)
Record Interval : Type := mkInterval { Start : Z; End_ : Z }.

(** [logproto.FilterChunkRefRequest]; [ReqRefs] is its field [Refs]. *)
Record FilterChunkRefRequest : Type := mkRequest {
  From : Z;
  Through : Z;
  ReqRefs : list GroupedChunkRefs;
  Blocks : list string;
  Plan : QueryPlan
}.

(** [logproto.FilterChunkRefResponse] *)
Record FilterChunkRefResponse : Type := mkResponse {
  ChunkRefs : list GroupedChunkRefs
}.

(** [logproto.BloomGatewayClient]: the filter RPC of one gateway. *)
Record BloomGatewayClient : Type := mkClient {
  FilterChunkRefs : FilterChunkRefRequest -> result FilterChunkRefResponse
}.

(** [JumpHashClientPool]: the router ([Addr]) and the connection layer
    ([GetClientFor]), as they answer during one call. *)
Record JumpHashClientPool : Type := mkPool {
  Addr : string -> result string;
  GetClientFor : string -> result BloomGatewayClient
}.

Record GatewayClient : Type := mkGatewayClient { pool : JumpHashClientPool }.

(** [context.Context]: [ctx_Err] is the error of a context that is
    cancelled when the fan-out starts. *)
Record Context : Type := mkContext { ctx_Err : option error }.

Record addrWithGroups : Type := mkAddrWithGroups {
  addr : string;
  blocks : list string;
  groups : list GroupedChunkRefs
}.

(** [getFirstLast] is declared in another file of the package; its two
    results are only compared against [firstFp] and [lastFp]. *)
Variable getFirstLast : list GroupedChunkRefs -> GroupedChunkRefs * GroupedChunkRefs.

(** What a call does to the outside, in order. *)
Inductive event : Type :=
| EvAddr (key : string)
| EvGetClientFor (address : string)
| EvFilterChunkRefs (address : string) (req : FilterChunkRefRequest)
| EvLogError (msg : string) (address : string)
| EvClientRequests (label : requestType).

(** The variables the closures of [FilterChunks] share ([results],
    [count]) and the events so far. *)
Record callState : Type := mkCallState {
  results : list (list GroupedChunkRefs);
  count : Z;
  trace : list event
}.

Definition M (T : Type) : Type := callState -> T * callState.

Definition ret {T : Type} (v : T) : M T := fun s => (v, s).

Definition bind {T U : Type} (m : M T) (k : T -> M U) : M U :=
  fun s => let r := m s in k r.1 r.2.

Notation "x <- m ;; k" := (bind m (fun x => k))
  (at level 100, m at next level, right associativity).
Notation "m ;; k" := (bind m (fun _ => k))
  (at level 100, right associativity).

Definition emit (e : event) : M unit :=
  fun s => (tt, mkCallState (results s) (count s) (trace s ++ [e])).

Definition get_results : M (list (list GroupedChunkRefs)) :=
  fun s => (results s, s).

Definition set_results (r : list (list GroupedChunkRefs)) : M unit :=
  fun s => (tt, mkCallState r (count s) (trace s)).

(** [results[i] = r]; the index is that of a job, below [len(results)]. *)
Definition set_result (i : nat) (r : list GroupedChunkRefs) : M unit :=
  fun s => (tt, mkCallState (<[i := r]> (results s)) (count s) (trace s)).

Definition set_count (n : Z) : M unit :=
  fun s => (tt, mkCallState (results s) n (trace s)).

(** [count.Add(n)] *)
Definition count_Add (n : Z) : M unit :=
  fun s => (tt, mkCallState (results s) (count s + n) (trace s)).

(** doForAddrs sequentially calls the provided callback function fn for
    each address in given slice addrs until the callback function does
    not return an error.  [err] is the variable declared before the
    loop. *)
Fixpoint doForAddrs_loop (c : GatewayClient) (addrs : list string)
    (fn : BloomGatewayClient -> M (option error)) (err : option error)
    : M (option error) :=
  match addrs with
  | [] => ret err
  | address :: rest =>
      emit (EvGetClientFor address) ;;
      match GetClientFor (pool c) address with
      | Err e =>
          emit (EvLogError "failed to get client for instance" address) ;;
          doForAddrs_loop c rest fn (Some e)
      | Ok poolClient =>
          err' <- fn poolClient ;;
          match err' with
          | Some e =>
              emit (EvLogError "client do failed for instance" address) ;;
              doForAddrs_loop c rest fn (Some e)
          | None => ret None
          end
      end
  end.

Definition doForAddrs (c : GatewayClient) (addrs : list string)
    (fn : BloomGatewayClient -> M (option error)) : M (option error) :=
  doForAddrs_loop c addrs fn None.

(** [concurrency.ForEachJob] of dskit: when the context is cancelled no
    job runs and its error is returned; otherwise the jobs run and the
    first error a job returns is the error of the whole.  The jobs are
    run here one after the other in the order of their index, which is
    one of the schedules of the fan-out; the jobs of [FilterChunks]
    write to slots of their own. *)
Fixpoint runJobs (jobFunc : nat -> M (option error)) (idxs : list nat)
    : M (option error) :=
  match idxs with
  | [] => ret None
  | i :: rest =>
      err <- jobFunc i ;;
      match err with
      | Some e => ret (Some e)
      | None => runJobs jobFunc rest
      end
  end.

Definition concurrency_ForEachJob (ctx : Context) (jobs concurrency : nat)
    (jobFunc : nat -> M (option error)) : M (option error) :=
  if (jobs =? 0)%nat then ret None
  else match ctx_Err ctx with
       | Some e => ret (Some e)
       | None => runJobs jobFunc (seq 0 jobs)
       end.

(** The variables of the partitioning loop of [FilterChunks]. *)
Record partState : Type := mkPartState {
  firstFp : Z;
  lastFp : Z;
  pos : gmap string nat;
  servers : list addrWithGroups
}.

(** The body of the loop over [blocks] once the router has answered:
    [firstFp] and [lastFp] are kept up to date and the block joins the
    server of its address, a new one when the address is seen for the
    first time.  [servers[idx]] is updated in place; [pos] only ever holds
    indices of [servers] (see [FilterChunks_partition_inv]). *)
Definition FilterChunks_place (st : partState) (address : string)
    (bws : blockWithSeries) : partState :=
  let fl := getFirstLast (series bws) in
  let firstFp' :=
    if Fingerprint fl.1 <? firstFp st then Fingerprint fl.1 else firstFp st in
  let lastFp' :=
    if Fingerprint fl.2 >? lastFp st then Fingerprint fl.2 else lastFp st in
  match pos st !! address with
  | Some idx =>
      mkPartState firstFp' lastFp' (pos st)
        (alter (fun srv =>
                  mkAddrWithGroups (addr srv)
                    (blocks srv ++ [block bws])
                    (groups srv ++ series bws))
               idx (servers st))
  | None =>
      mkPartState firstFp' lastFp'
        (<[address := length (servers st)]> (pos st))
        (servers st ++ [mkAddrWithGroups address [block bws] (series bws)])
  end.

(** The loop over [blocks]. *)
Fixpoint FilterChunks_partition (c : GatewayClient) (blks : list blockWithSeries)
    (st : partState) : M (result partState) :=
  match blks with
  | [] => ret (Ok st)
  | bws :: rest =>
      emit (EvAddr (block bws)) ;;
      match Addr (pool c) (block bws) with
      | Err err =>
          ret (Err (errors_Wrapf err ("server address for block: " +:+ block bws)))
      | Ok address =>
          FilterChunks_partition c rest (FilterChunks_place st address bws)
      end
  end.

(** The request sent to the gateway of one shard. *)
Definition FilterChunks_request (interval : Interval) (rs : addrWithGroups)
    (plan : QueryPlan) : FilterChunkRefRequest :=
  {| From := Start interval;
     Through := End_ interval;
     ReqRefs := sort_Slice fp_less (groups rs);
     Blocks := blocks rs;
     Plan := plan |}.

(** The job of shard [i]; [i] is below [len(servers)], so [servers[i]]
    is there. *)
Definition FilterChunks_job (c : GatewayClient) (interval : Interval)
    (plan : QueryPlan) (srvs : list addrWithGroups) (i : nat) : M (option error) :=
  match srvs !! i with
  | None => ret None
  | Some rs =>
      let rs_groups := sort_Slice fp_less (groups rs) in
      doForAddrs c [addr rs] (fun client =>
        let req := FilterChunks_request interval rs plan in
        emit (EvFilterChunkRefs (addr rs) req) ;;
        match FilterChunkRefs client req with
        | Err err =>
            emit (EvLogError "filter failed for instance, skipping" (addr rs)) ;;
            emit (EvClientRequests typeError) ;;
            set_result i rs_groups ;;
            count_Add (Z.of_nat (length rs_groups)) ;;
            ret None
        | Ok resp =>
            emit (EvClientRequests typeSuccess) ;;
            set_result i (ChunkRefs resp) ;;
            count_Add (Z.of_nat (length (ChunkRefs resp))) ;;
            ret None
        end)
  end.

(** FilterChunks implements Client.  The slice of the result is [None]
    when it is nil. *)
Definition FilterChunks (c : GatewayClient) (ctx : Context) (_ : string)
    (interval : Interval) (blks : list blockWithSeries) (plan : QueryPlan)
    : M (option (list GroupedChunkRefs) * option error) :=
  if (length blks =? 0)%nat then ret (None, None)
  else
    part <- FilterChunks_partition c blks
              (mkPartState math_MaxUint64 0 ∅ []) ;;
    match part with
    | Err err => ret (None, Some err)
    | Ok st =>
        set_results (replicate (length (servers st)) []) ;;
        set_count 0 ;;
        err <- concurrency_ForEachJob ctx (length (servers st)) (length (servers st))
                 (FilterChunks_job c interval plan (servers st)) ;;
        match err with
        | Some e => ret (None, Some e)
        | None =>
            res <- get_results ;;
            let buf := [] in
            let merged := mergeSeries res buf in
            ret (Some merged.1, merged.2)
        end
    end.

(** What the job of a shard leaves in its slot of [results] once it has
    a client: the response of the gateway, or the groups it would have
    sent when the request fails. *)
Definition shard_result (interval : Interval) (plan : QueryPlan)
    (rs : addrWithGroups) (client : BloomGatewayClient) : list GroupedChunkRefs :=
  match FilterChunkRefs client (FilterChunks_request interval rs plan) with
  | Err _ => sort_Slice fp_less (groups rs)
  | Ok resp => ChunkRefs resp
  end.

(** [pos] and [servers] agree: an address recorded in [pos] is the address
    of the server at that index, and every server is recorded. *)
Definition partition_inv (st : partState) : Prop :=
  (forall a i, pos st !! a = Some i ->
               exists srv, servers st !! i = Some srv /\ addr srv = a) /\
  (forall i srv, servers st !! i = Some srv -> pos st !! addr srv = Some i).

(** A server of a later state holds all that a server of an earlier state
    held, for the same address. *)
Definition server_grows (rs rs' : addrWithGroups) : Prop :=
  addr rs' = addr rs /\
  (forall b, b ∈ blocks rs -> b ∈ blocks rs') /\
  (forall g, g ∈ groups rs -> g ∈ groups rs').

(** The filter requests among the events of a call. *)
Definition outbound_requests (tr : list event) : list FilterChunkRefRequest :=
  omap (fun ev => match ev with
                  | EvFilterChunkRefs _ req => Some req
                  | _ => None
                  end) tr.

(** The events of the job of one shard, in order. *)
Definition shard_events (c : GatewayClient) (interval : Interval)
    (plan : QueryPlan) (rs : addrWithGroups) : list event :=
  EvGetClientFor (addr rs) ::
  match GetClientFor (pool c) (addr rs) with
  | Err _ => [EvLogError "failed to get client for instance" (addr rs)]
  | Ok cl =>
      EvFilterChunkRefs (addr rs) (FilterChunks_request interval rs plan) ::
      match FilterChunkRefs cl (FilterChunks_request interval rs plan) with
      | Err _ =>
          [EvLogError "filter failed for instance, skipping" (addr rs);
           EvClientRequests typeError]
      | Ok _ => [EvClientRequests typeSuccess]
      end
  end.

(** What the job of one shard leaves in its slot; nothing when the pool
    has no client for the shard. *)
Definition shard_slot (c : GatewayClient) (interval : Interval)
    (plan : QueryPlan) (rs : addrWithGroups) : list GroupedChunkRefs :=
  match GetClientFor (pool c) (addr rs) with
  | Ok cl => shard_result interval plan rs cl
  | Err _ => []
  end.

(** Whether the filter request of a shard fails. *)
Definition shard_failed (c : GatewayClient) (interval : Interval)
    (plan : QueryPlan) (rs : addrWithGroups) : bool :=
  match GetClientFor (pool c) (addr rs) with
  | Ok cl =>
      match FilterChunkRefs cl (FilterChunks_request interval rs plan) with
      | Err _ => true
      | Ok _ => false
      end
  | Err _ => false
  end.

(** Whether an event is an increment of the [clientRequests] counter with
    a given label. *)
Definition is_clientRequests (label : requestType) (ev : event) : bool :=
  match ev, label with
  | EvClientRequests typeSuccess, typeSuccess
  | EvClientRequests typeError, typeError => true
  | _, _ => false
  end.

(** How often the [clientRequests] counter was incremented with a label. *)
Definition clientRequests (label : requestType) (tr : list event) : nat :=
  length (filter (fun ev => is_clientRequests label ev = true) tr).

(** *** Orders on groups and on chunk references *)

Definition fp_le (a b : GroupedChunkRefs) : Prop := Fingerprint a <= Fingerprint b.
Definition fp_lt (a b : GroupedChunkRefs) : Prop := Fingerprint a < Fingerprint b.

Definition ref_lt (a b : ShortRef) : Prop := Less a b = true.
Definition ref_le (a b : ShortRef) : Prop := Less b a = false.

(** Sorted ascending and duplicate-free, as the data model asks of the
    [Refs] of a group. *)
Definition RefsSortedNoDup (l : list ShortRef) : Prop :=
  Sorted ref_le l /\ NoDup l.

(** *** Facts about the sorting primitives *)

Section SortFacts.
Context {E : Type} (less : E -> E -> bool).

Lemma elem_of_concat (x : E) (ls : list (list E)) :
  x ∈ concat ls <-> exists l, x ∈ l /\ l ∈ ls.
Proof.
  induction ls as [|l ls IH]; simpl.
  - split; [by intros ?%elem_of_nil|by intros (l & _ & ?%elem_of_nil)].
  - rewrite elem_of_app, IH. split.
    + intros [Hx|(l' & Hx & Hl')]; [exists l|exists l'];
        rewrite elem_of_cons; auto.
    + intros (l' & Hx & [->|Hl']%elem_of_cons); [by left|right; eauto].
Qed.

Lemma sort_insert_perm a l : sort_insert less a l ≡ₚ a :: l.
Proof.
  induction l as [|b t IH]; simpl; [done|].
  destruct (less b a); [|done]. rewrite IH. apply Permutation_swap.
Qed.

Lemma sort_Slice_perm l : sort_Slice less l ≡ₚ l.
Proof.
  induction l as [|a t IH]; simpl; [done|].
  by rewrite sort_insert_perm, IH.
Qed.

(** A slice that is sorted already is left as it is. *)
Lemma sort_Slice_sorted_id l :
  Sorted (fun a b => less b a = false) l -> sort_Slice less l = l.
Proof.
  induction 1 as [|a t Hs IH Hhd]; simpl; [done|].
  rewrite IH. destruct Hhd as [|b t' Hab]; simpl; [done|]. by rewrite Hab.
Qed.

Lemma isSorted_Sorted l :
  isSorted less l = true <-> Sorted (fun a b => less b a = false) l.
Proof.
  induction l as [|a t IH]; [split; [constructor|done]|].
  destruct t as [|b t]; [split; [repeat constructor|done]|].
  change (isSorted less (a :: b :: t))
    with (negb (less b a) && isSorted less (b :: t)).
  rewrite andb_true_iff, negb_true_iff, IH. split.
  - intros [Hab Hs]. constructor; [done|by constructor].
  - intros Hs. apply Sorted_inv in Hs as [Hs Hhd].
    by apply HdRel_inv in Hhd.
Qed.

Variable key : E -> Z.
Hypothesis less_key : forall a b, less a b = (key a <? key b).

Lemma sort_insert_key_sorted a l :
  StronglySorted (key_le key) l -> StronglySorted (key_le key) (sort_insert less a l).
Proof.
  induction 1 as [|b t Hs IH Hall]; simpl; [by repeat constructor|].
  rewrite less_key. destruct (Z.ltb_spec (key b) (key a)) as [Hlt|Hge].
  - constructor; [done|]. rewrite sort_insert_perm.
    constructor; [unfold key_le; lia|done].
  - constructor; [by constructor|]. constructor; [done|].
    eapply Forall_impl; [exact Hall|]. unfold key_le. intros; lia.
Qed.

Lemma sort_Slice_key_sorted l : StronglySorted (key_le key) (sort_Slice less l).
Proof.
  induction l as [|a t IH]; simpl; [constructor|].
  by apply sort_insert_key_sorted.
Qed.

(** *** Facts about the heap iterator *)

Lemma heap_pop_None itrs : heap_pop less itrs = None -> concat itrs = [].
Proof.
  induction itrs as [|[|x xs] rest IH]; simpl; [done|done|].
  destruct (heap_pop less rest) as [[y rest']|]; [|done].
  by destruct (less y x).
Qed.

Lemma heap_pop_perm itrs x itrs' :
  heap_pop less itrs = Some (x, itrs') -> concat itrs ≡ₚ x :: concat itrs'.
Proof.
  revert x itrs'. induction itrs as [|[|x0 xs] rest IH]; simpl; [done|done|].
  intros x itrs'. destruct (heap_pop less rest) as [[y rest']|] eqn:Hpop.
  - destruct (less y x0); intros [= <- <-]; simpl; [|done].
    rewrite (IH _ _ eq_refl), <- (Permutation_middle xs (concat rest') y).
    apply Permutation_swap.
  - intros [= <- <-]. simpl. apply heap_pop_None in Hpop. by rewrite Hpop.
Qed.

Lemma heap_pop_min itrs x itrs' :
  Forall (StronglySorted (key_le key)) itrs ->
  heap_pop less itrs = Some (x, itrs') ->
  Forall (StronglySorted (key_le key)) itrs' /\ Forall ((key_le key) x) (concat itrs').
Proof.
  revert x itrs'. induction itrs as [|[|x0 xs] rest IH]; simpl; [done| |].
  - intros x itrs' Hs. apply Forall_cons in Hs as [_ Hs]. by apply IH.
  - intros x itrs' Hs. apply Forall_cons in Hs as [Hs0 Hs].
    apply StronglySorted_inv in Hs0 as [Hxs Hx0].
    destruct (heap_pop less rest) as [[y rest']|] eqn:Hpop.
    + destruct (IH _ _ Hs eq_refl) as [Hs' Hmin].
      rewrite less_key. destruct (Z.ltb_spec (key y) (key x0)) as [Hlt|Hge];
        intros [= <- <-]; simpl.
      * split; [by repeat constructor|].
        constructor; [unfold key_le; lia|]. apply Forall_app. split; [|done].
        eapply Forall_impl; [exact Hx0|]. unfold key_le. intros; lia.
      * split; [by constructor|]. apply Forall_app. split; [done|].
        rewrite (heap_pop_perm _ _ _ Hpop).
        constructor; [done|].
        eapply Forall_impl; [exact Hmin|]. unfold key_le. intros; lia.
    + intros [= <- <-]. simpl. split; [by repeat constructor|].
      by rewrite app_nil_r.
Qed.

Lemma heap_drain_perm fuel itrs :
  (length (concat itrs) <= fuel)%nat -> heap_drain less fuel itrs ≡ₚ concat itrs.
Proof.
  revert itrs. induction fuel as [|fuel IH]; intros itrs Hlen; simpl.
  - destruct (concat itrs); [done|simpl in Hlen; lia].
  - destruct (heap_pop less itrs) as [[x itrs']|] eqn:Hpop.
    + pose proof (heap_pop_perm _ _ _ Hpop) as Hp. rewrite Hp.
      constructor. apply IH. apply Permutation_length in Hp.
      simpl in Hp. lia.
    + by rewrite (heap_pop_None _ Hpop).
Qed.

Lemma heap_drain_sorted fuel itrs :
  Forall (StronglySorted (key_le key)) itrs ->
  StronglySorted (key_le key) (heap_drain less fuel itrs).
Proof.
  revert itrs. induction fuel as [|fuel IH]; intros itrs Hs; simpl; [constructor|].
  destruct (heap_pop less itrs) as [[x itrs']|] eqn:Hpop; [|constructor].
  destruct (heap_pop_min _ _ _ Hs Hpop) as [Hs' Hmin].
  constructor; [by apply IH|].
  apply Forall_forall. intros y Hy. rewrite Forall_forall in Hmin. apply Hmin.
  destruct (Nat.le_gt_cases (length (concat itrs')) fuel) as [Hle|Hgt].
  - by rewrite <- (heap_drain_perm fuel itrs' Hle).
  - clear -Hy. revert itrs' Hy. induction fuel as [|fuel IH]; simpl; intros itrs'.
    + by intros ?%elem_of_nil.
    + destruct (heap_pop less itrs') as [[z itrs'']|] eqn:Hpop;
        [|by intros ?%elem_of_nil].
      rewrite (heap_pop_perm _ _ _ Hpop). rewrite !elem_of_cons.
      intros [->|Hy]; [by left|right; by apply IH].
Qed.

(** The heap iterator yields every element of every source, in
    ascending order of the key. *)
Lemma v1_NewHeapIterator_perm itrs : v1_NewHeapIterator less itrs ≡ₚ concat itrs.
Proof. by apply heap_drain_perm. Qed.

Lemma v1_NewHeapIterator_sorted itrs :
  Forall (StronglySorted (key_le key)) itrs ->
  StronglySorted (key_le key) (v1_NewHeapIterator less itrs).
Proof. apply heap_drain_sorted. Qed.
End SortFacts.

(** *** Facts about [mergeChunkSets] *)

Lemma mergeChunkSets_nil_r s1 : mergeChunkSets s1 [] = s1.
Proof. by destruct s1. Qed.

Lemma mergeChunkSets_cons a t1 b t2 :
  mergeChunkSets (a :: t1) (b :: t2) =
    if Equal a b then a :: mergeChunkSets t1 t2
    else if Less a b then a :: mergeChunkSets t1 (b :: t2)
    else b :: mergeChunkSets (a :: t1) t2.
Proof. reflexivity. Qed.

(** Induction following the three branches of the loop. *)
Lemma mergeChunkSets_ind (P : list ShortRef -> list ShortRef -> list ShortRef -> Prop) :
  (forall s2, P [] s2 s2) ->
  (forall a t1, P (a :: t1) [] (a :: t1)) ->
  (forall a t1 b t2, Equal a b = true ->
     P t1 t2 (mergeChunkSets t1 t2) ->
     P (a :: t1) (b :: t2) (a :: mergeChunkSets t1 t2)) ->
  (forall a t1 b t2, Equal a b = false -> Less a b = true ->
     P t1 (b :: t2) (mergeChunkSets t1 (b :: t2)) ->
     P (a :: t1) (b :: t2) (a :: mergeChunkSets t1 (b :: t2))) ->
  (forall a t1 b t2, Equal a b = false -> Less a b = false ->
     P (a :: t1) t2 (mergeChunkSets (a :: t1) t2) ->
     P (a :: t1) (b :: t2) (b :: mergeChunkSets (a :: t1) t2)) ->
  forall s1 s2, P s1 s2 (mergeChunkSets s1 s2).
Proof.
  intros Hnil Hnil' Heq Hlt Hgt.
  induction s1 as [|a t1 IH1]; [exact Hnil|].
  induction s2 as [|b t2 IH2]; [exact (Hnil' a t1)|].
  rewrite mergeChunkSets_cons.
  destruct (Equal a b) eqn:E; [by apply Heq|].
  destruct (Less a b) eqn:L; [by apply Hlt|by apply Hgt].
Qed.

Lemma mergeChunkSets_elem_of_inv s1 s2 x :
  x ∈ mergeChunkSets s1 s2 -> x ∈ s1 \/ x ∈ s2.
Proof.
  revert x. pattern s1, s2, (mergeChunkSets s1 s2).
  apply mergeChunkSets_ind; clear s1 s2.
  - auto.
  - auto.
  - intros a t1 b t2 _ IH x. rewrite !elem_of_cons.
    intros [->|H]; [auto|]. apply IH in H as [H|H]; auto.
  - intros a t1 b t2 _ _ IH x. rewrite !elem_of_cons.
    intros [->|H]; [auto|]. apply IH in H as [H|H]; [auto|].
    apply elem_of_cons in H as [->|H]; auto.
  - intros a t1 b t2 _ _ IH x. rewrite !elem_of_cons.
    intros [->|H]; [auto|]. apply IH in H as [H|H]; [|auto].
    apply elem_of_cons in H as [->|H]; auto.
Qed.

Lemma mergeChunkSets_length_le s1 s2 :
  (length (mergeChunkSets s1 s2) <= length s1 + length s2)%nat.
Proof.
  pattern s1, s2, (mergeChunkSets s1 s2).
  apply mergeChunkSets_ind; clear s1 s2; intros; simpl in *; lia.
Qed.

Lemma mergeChunkSets_length_ge s1 s2 :
  (Nat.max (length s1) (length s2) <= length (mergeChunkSets s1 s2))%nat.
Proof.
  pattern s1, s2, (mergeChunkSets s1 s2).
  apply mergeChunkSets_ind; clear s1 s2; intros; simpl in *; lia.
Qed.

(** *** Laws of the comparator

    [Equal] decides identity of the reference, [Less] is a strict total
    order and [Cmp] is negative exactly when [Less] holds. *)
Hypothesis Equal_eq : forall a b, Equal a b = true <-> a = b.
Hypothesis Less_irrefl : forall a, Less a a = false.
Hypothesis Less_trans : forall a b c,
  Less a b = true -> Less b c = true -> Less a c = true.
Hypothesis Less_total : forall a b,
  Less a b = true \/ a = b \/ Less b a = true.
Hypothesis Cmp_Less : forall a b, (Cmp a b <? 0) = Less a b.

Lemma mergeChunkSets_elem_of s1 s2 x :
  x ∈ mergeChunkSets s1 s2 <-> x ∈ s1 \/ x ∈ s2.
Proof.
  split; [apply mergeChunkSets_elem_of_inv|].
  revert x. pattern s1, s2, (mergeChunkSets s1 s2).
  apply mergeChunkSets_ind; clear s1 s2.
  - intros s2 x [H|H]; [by apply elem_of_nil in H|done].
  - intros a t1 x [H|H]; [done|by apply elem_of_nil in H].
  - intros a t1 b t2 E IH x. apply Equal_eq in E as <-.
    rewrite !elem_of_cons. intros [[->|H]|[->|H]]; auto.
  - intros a t1 b t2 _ _ IH x. rewrite !elem_of_cons.
    intros [[->|H]|H]; [auto| |]; right; apply IH; rewrite ?elem_of_cons; auto.
  - intros a t1 b t2 _ _ IH x. rewrite !elem_of_cons.
    intros [H|[->|H]]; [|auto|]; right; apply IH; rewrite ?elem_of_cons; auto.
Qed.

Lemma ref_lt_le a b : ref_lt a b -> ref_le a b.
Proof.
  unfold ref_lt, ref_le. intros Hab.
  destruct (Less b a) eqn:Hba; [|done].
  pose proof (Less_trans _ _ _ Hab Hba) as Haa.
  by rewrite Less_irrefl in Haa.
Qed.

Lemma ref_lt_ne a b : ref_lt a b -> a <> b.
Proof. unfold ref_lt. intros H ->. by rewrite Less_irrefl in H. Qed.

(** Sorted and duplicate-free is the same as strictly ascending. *)
Lemma RefsSortedNoDup_strict l :
  RefsSortedNoDup l <-> StronglySorted ref_lt l.
Proof.
  split.
  - intros [Hs Hn]. induction l as [|a t IH]; [constructor|].
    apply Sorted_inv in Hs as [Hs Hhd]. apply NoDup_cons in Hn as [Hnot Hn].
    specialize (IH Hs Hn). constructor; [done|].
    destruct Hhd as [|b t' Hab]; [constructor|].
    assert (ref_lt a b) as Hlt.
    { destruct (Less_total a b) as [H|[->|H]]; [done| |].
      - exfalso. apply Hnot. left.
      - unfold ref_le in Hab. congruence. }
    apply StronglySorted_inv in IH as [_ Hall].
    constructor; [done|].
    eapply Forall_impl; [exact Hall|]. intros c Hbc. by eapply Less_trans.
  - intros Hs. induction Hs as [|a t Hs [IHs IHn] Hall]; [split; constructor|].
    split.
    + constructor; [done|]. destruct Hall; constructor. by apply ref_lt_le.
    + apply NoDup_cons. split; [|done]. intros Hin.
      rewrite Forall_forall in Hall. by apply (ref_lt_ne a a); [apply Hall|].
Qed.

Lemma mergeChunkSets_strict s1 s2 :
  StronglySorted ref_lt s1 -> StronglySorted ref_lt s2 ->
  StronglySorted ref_lt (mergeChunkSets s1 s2).
Proof.
  pattern s1, s2, (mergeChunkSets s1 s2).
  apply mergeChunkSets_ind; clear s1 s2.
  - done.
  - done.
  - intros a t1 b t2 E IH H1 H2. apply Equal_eq in E as <-.
    apply StronglySorted_inv in H1 as [H1 A1].
    apply StronglySorted_inv in H2 as [H2 A2].
    constructor; [by apply IH|]. rewrite Forall_forall in A1, A2 |- *.
    intros x Hx. apply mergeChunkSets_elem_of_inv in Hx as [Hx|Hx]; auto.
  - intros a t1 b t2 _ L IH H1 H2.
    apply StronglySorted_inv in H1 as [H1 A1].
    pose proof H2 as H2'. apply StronglySorted_inv in H2' as [_ A2].
    constructor; [by apply IH|]. rewrite Forall_forall in A1, A2 |- *.
    intros x Hx. apply mergeChunkSets_elem_of_inv in Hx as [Hx|Hx]; [auto|].
    apply elem_of_cons in Hx as [->|Hx]; [done|].
    eapply Less_trans; [exact L|by apply A2].
  - intros a t1 b t2 E L IH H1 H2.
    assert (ref_lt b a) as Hba.
    { destruct (Less_total a b) as [H|[->|H]]; [congruence| |done].
      assert (Equal b b = true) by by apply Equal_eq. congruence. }
    pose proof H1 as H1'. apply StronglySorted_inv in H1' as [_ A1].
    apply StronglySorted_inv in H2 as [H2 A2].
    constructor; [by apply IH|]. rewrite Forall_forall in A1, A2 |- *.
    intros x Hx. apply mergeChunkSets_elem_of_inv in Hx as [Hx|Hx]; [|auto].
    apply elem_of_cons in Hx as [->|Hx]; [done|].
    eapply Less_trans; [exact Hba|by apply A1].
Qed.

Lemma mergeChunkSets_self s : mergeChunkSets s s = s.
Proof.
  induction s as [|a t IH]; [done|].
  rewrite mergeChunkSets_cons.
  assert (Equal a a = true) as -> by by apply Equal_eq.
  by rewrite IH.
Qed.

(** *** Facts about the [merge] closure *)

Lemma slices_IsSortedFunc_sorted l :
  Sorted ref_le l -> slices_IsSortedFunc l Cmp = true.
Proof.
  intros Hs. apply isSorted_Sorted.
  eapply Sorted_ind with (P := Sorted _); [constructor| |exact Hs].
  intros a t _ IH Hhd. constructor; [done|].
  destruct Hhd as [|b t' Hab]; constructor. by rewrite Cmp_Less.
Qed.

Lemma mergeSeries_merge_Fingerprint a b :
  Fingerprint (mergeSeries_merge a b) = Fingerprint a.
Proof. reflexivity. Qed.

Lemma mergeSeries_merge_sorted a b :
  Sorted ref_le (Refs a) -> Sorted ref_le (Refs b) ->
  mergeSeries_merge a b =
    mkGroup (Fingerprint a) (Tenant a) (mergeChunkSets (Refs a) (Refs b)).
Proof.
  intros Ha Hb. unfold mergeSeries_merge.
  by rewrite !slices_IsSortedFunc_sorted.
Qed.

(** Whatever the order of the two sides, no reference is lost. *)
Lemma mergeSeries_merge_elem_of a b r :
  r ∈ Refs a \/ r ∈ Refs b -> r ∈ Refs (mergeSeries_merge a b).
Proof.
  intros Hr. unfold mergeSeries_merge. simpl. apply mergeChunkSets_elem_of.
  unfold slices_SortFunc.
  destruct Hr as [Hr|Hr]; [left|right];
    match goal with |- _ ∈ (if ?c then _ else _) => destruct c end;
    by rewrite ?sort_Slice_perm.
Qed.

(** *** Facts about the deduplicating stage of [mergeSeries] *)

Local Abbreviation dedupe := (dedupe_next fp_eq v1_Identity mergeSeries_merge).

Lemma fp_eq_true a b : fp_eq a b = true <-> Fingerprint a = Fingerprint b.
Proof. apply Z.eqb_eq. Qed.

Lemma fp_eq_false a b : fp_eq a b = false <-> Fingerprint a <> Fingerprint b.
Proof. apply Z.eqb_neq. Qed.

Lemma fp_lt_NoDup l : StronglySorted fp_lt l -> NoDup (map Fingerprint l).
Proof.
  induction 1 as [|a t Hs IH Hall]; simpl; [constructor|].
  apply NoDup_cons. split; [|done].
  intros Hin. apply list_elem_of_fmap in Hin as (b & Hab & Hb).
  rewrite Forall_forall in Hall. specialize (Hall b Hb).
  unfold fp_lt in Hall. lia.
Qed.

Lemma dedupe_fp_strict l tmp :
  StronglySorted fp_le l -> Forall (fp_le tmp) l ->
  StronglySorted fp_lt (dedupe tmp l) /\ Forall (fp_le tmp) (dedupe tmp l).
Proof.
  intros Hs. revert tmp. induction Hs as [|next rest Hs IH Hall]; intros tmp Htmp; simpl.
  - split; [repeat constructor|]. constructor; [unfold fp_le; lia|constructor].
  - apply Forall_cons in Htmp as [Hnext Htmp]. unfold fp_le in Hnext.
    destruct (fp_eq next tmp) eqn:E.
    + apply fp_eq_true in E.
      destruct (IH (mergeSeries_merge next tmp)) as [IH1 IH2].
      { eapply Forall_impl; [exact Hall|]. unfold fp_le. simpl. intros; lia. }
      split; [done|]. eapply Forall_impl; [exact IH2|].
      unfold fp_le. simpl. intros; lia.
    + apply fp_eq_false in E.
      destruct (IH (v1_Identity next) Hall) as [IH1 IH2].
      split.
      * constructor; [done|]. eapply Forall_impl; [exact IH2|].
        unfold fp_le, fp_lt, v1_Identity. intros; lia.
      * constructor; [unfold fp_le; lia|]. eapply Forall_impl; [exact IH2|].
        unfold fp_le, v1_Identity. intros; lia.
Qed.

(** Each entry of the output carries exactly the references of the
    entries of its fingerprint in the merged stream. *)
Lemma dedupe_refs l tmp :
  StronglySorted fp_le l -> Forall (fp_le tmp) l ->
  Forall (fun e => StronglySorted ref_lt (Refs e)) (tmp :: l) ->
  forall o, o ∈ dedupe tmp l ->
    StronglySorted ref_lt (Refs o) /\
    (forall r, r ∈ Refs o <->
       exists e, e ∈ tmp :: l /\ Fingerprint e = Fingerprint o /\ r ∈ Refs e).
Proof.
  intros Hs. revert tmp.
  induction Hs as [|next rest Hs IH Hall]; intros tmp Htmp Hrefs o; simpl.
  - intros ->%list_elem_of_singleton. apply Forall_cons in Hrefs as [Hr _].
    split; [done|]. intros r. split.
    + intros Hin. exists tmp. split; [by left|done].
    + by intros (e & ->%list_elem_of_singleton & _ & Hin).
  - apply Forall_cons in Htmp as [Hnext Htmp]. unfold fp_le in Hnext.
    apply Forall_cons in Hrefs as [Rtmp Hrefs].
    pose proof Hrefs as Hrefs'. apply Forall_cons in Hrefs' as [Rnext Rrest].
    destruct (fp_eq next tmp) eqn:E.
    + apply fp_eq_true in E.
      assert (mergeSeries_merge next tmp =
              mkGroup (Fingerprint next) (Tenant next)
                      (mergeChunkSets (Refs next) (Refs tmp))) as Hm.
      { apply mergeSeries_merge_sorted; by apply RefsSortedNoDup_strict. }
      intros Ho.
      assert (Forall (fp_le (mergeSeries_merge next tmp)) rest) as H1.
      { eapply Forall_impl; [exact Hall|]. unfold fp_le. simpl. intros; lia. }
      assert (Forall (fun e => StronglySorted ref_lt (Refs e))
                     (mergeSeries_merge next tmp :: rest)) as H2.
      { constructor; [|done]. rewrite Hm. simpl. by apply mergeChunkSets_strict. }
      destruct (IH _ H1 H2 o Ho) as [IH1 IH2].
      split; [done|]. intros r. rewrite IH2. rewrite Hm. split.
      * intros (e & [->|He]%elem_of_cons & Hfp & Hr); simpl in *.
        -- apply mergeChunkSets_elem_of in Hr as [Hr|Hr].
           ++ exists next. rewrite !elem_of_cons. auto.
           ++ exists tmp. rewrite !elem_of_cons. split; [auto|]. split; [lia|done].
        -- exists e. rewrite !elem_of_cons. auto.
      * intros (e & [->|[->|He]%elem_of_cons]%elem_of_cons & Hfp & Hr).
        -- eexists. split; [by left|]. simpl. split; [lia|].
           apply mergeChunkSets_elem_of. auto.
        -- eexists. split; [by left|]. simpl. split; [lia|].
           apply mergeChunkSets_elem_of. auto.
        -- exists e. rewrite elem_of_cons. auto.
    + apply fp_eq_false in E. intros [->|Ho]%elem_of_cons.
      * split; [done|]. intros r. split.
        -- intros Hin. exists tmp. split; [by left|done].
        -- intros (e & [->|[->|He]%elem_of_cons]%elem_of_cons & Hfp & Hr); [done|lia|].
           rewrite Forall_forall in Hall. specialize (Hall e He).
           unfold fp_le in Hall. lia.
      * destruct (dedupe_fp_strict rest (v1_Identity next) Hs Hall) as [_ Hge].
        rewrite Forall_forall in Hge. specialize (Hge o Ho).
        unfold fp_le, v1_Identity in Hge.
        destruct (IH (v1_Identity next) Hall Hrefs o Ho) as [IH1 IH2].
        split; [done|]. intros r. rewrite IH2. unfold v1_Identity. split.
        -- intros (e & He & Hfp & Hr). exists e. rewrite elem_of_cons. auto.
        -- intros (e & [->|He]%elem_of_cons & Hfp & Hr); [lia|]. by exists e.
Qed.

(** Every entry of the merged stream is represented in the output,
    with all of its references. *)
Lemma dedupe_covers l tmp e :
  e ∈ tmp :: l ->
  exists o, o ∈ dedupe tmp l /\ Fingerprint o = Fingerprint e /\
            forall r, r ∈ Refs e -> r ∈ Refs o.
Proof.
  revert tmp e. induction l as [|next rest IH]; intros tmp e He; simpl.
  - apply list_elem_of_singleton in He as ->.
    exists tmp. split; [by left|done].
  - destruct (fp_eq next tmp) eqn:E.
    + apply fp_eq_true in E.
      assert (exists e', e' ∈ mergeSeries_merge next tmp :: rest /\
                Fingerprint e' = Fingerprint e /\
                forall r, r ∈ Refs e -> r ∈ Refs e') as (e' & He' & Hfp & Hsub).
      { apply elem_of_cons in He as [->|He]; [|apply elem_of_cons in He as [->|He]].
        - eexists. split; [by left|]. split; [by simpl|].
          intros r Hr. apply mergeSeries_merge_elem_of. auto.
        - eexists. split; [by left|]. split; [by simpl|].
          intros r Hr. apply mergeSeries_merge_elem_of. auto.
        - exists e. split; [by right|done]. }
      destruct (IH _ _ He') as (o & Ho & Hfo & Hro).
      exists o. split; [done|]. split; [congruence|auto].
    + apply elem_of_cons in He as [->|He].
      * exists tmp. split; [by left|done].
      * destruct (IH (v1_Identity next) e He) as (o & Ho & Hfo & Hro).
        exists o. split; [by right|done].
Qed.

Lemma fp_strict_unique l o o' :
  StronglySorted fp_lt l -> o ∈ l -> o' ∈ l ->
  Fingerprint o = Fingerprint o' -> o = o'.
Proof.
  induction 1 as [|a t Hs IH Hall]; [by intros ?%elem_of_nil|].
  rewrite Forall_forall in Hall. unfold fp_lt in Hall.
  intros [->|Ho]%elem_of_cons [->|Ho']%elem_of_cons Hfp; [done| | |by apply IH].
  - specialize (Hall _ Ho'). lia.
  - specialize (Hall _ Ho). lia.
Qed.

(** *** Facts about [mergeSeries] *)

Local Abbreviation merged_stream input :=
  (v1_NewHeapIterator fp_less (map (sort_Slice fp_less) input)).

Lemma mergeSeries_unfold input buf :
  mergeSeries input buf =
    (v1_NewDedupingIter fp_eq v1_Identity mergeSeries_merge (merged_stream input),
     None).
Proof. reflexivity. Qed.

Lemma fp_less_key a b : fp_less a b = (Fingerprint a <? Fingerprint b).
Proof. reflexivity. Qed.

Lemma merged_stream_sorted input : StronglySorted fp_le (merged_stream input).
Proof.
  apply (v1_NewHeapIterator_sorted fp_less Fingerprint fp_less_key).
  apply Forall_forall. intros l (inp & -> & _)%list_elem_of_fmap.
  apply (sort_Slice_key_sorted fp_less Fingerprint fp_less_key).
Qed.

Lemma merged_stream_elem_of input e :
  e ∈ merged_stream input <-> exists inp, inp ∈ input /\ e ∈ inp.
Proof.
  rewrite v1_NewHeapIterator_perm, elem_of_concat. split.
  - intros (l & He & (inp & -> & Hinp)%list_elem_of_fmap).
    exists inp. by rewrite sort_Slice_perm in He.
  - intros (inp & Hinp & He). exists (sort_Slice fp_less inp).
    split; [by rewrite sort_Slice_perm|]. apply list_elem_of_fmap. eauto.
Qed.

Lemma mergeSeries_strict input buf :
  StronglySorted fp_lt (mergeSeries input buf).1.
Proof.
  rewrite mergeSeries_unfold. simpl.
  pose proof (merged_stream_sorted input) as Hs.
  destruct (merged_stream input) as [|first rest]; simpl; [constructor|].
  apply StronglySorted_inv in Hs as [Hs Hall].
  by apply dedupe_fp_strict.
Qed.

Lemma fp_sorted_NoDup_strict l :
  Sorted fp_le l -> NoDup (map Fingerprint l) -> StronglySorted fp_lt l.
Proof.
  intros Hs Hn. apply Sorted_StronglySorted in Hs;
    [|intros a b c; unfold fp_le; lia].
  induction Hs as [|a t Hs IH Hall]; [constructor|].
  simpl in Hn. apply NoDup_cons in Hn as [Hnot Hn].
  constructor; [by apply IH|].
  apply Forall_forall. intros b Hb. rewrite Forall_forall in Hall.
  specialize (Hall b Hb). unfold fp_le in Hall. unfold fp_lt.
  assert (Fingerprint a <> Fingerprint b); [|lia].
  intros Heq. apply Hnot. rewrite Heq. apply list_elem_of_fmap. eauto.
Qed.

Lemma fp_strict_sorted l : StronglySorted fp_lt l -> Sorted fp_le l.
Proof.
  induction 1 as [|a t Hs IH Hall]; constructor; [done|].
  destruct Hall as [|b t' Hab]; constructor. unfold fp_lt, fp_le in *. lia.
Qed.

(** Two copies of one strictly ascending list leave the heap pairwise. *)
Lemma heap_drain_twice L :
  StronglySorted fp_lt L -> forall fuel, (2 * length L <= fuel)%nat ->
  heap_drain fp_less fuel [L; L] = flat_map (fun x => [x; x]) L.
Proof.
  induction 1 as [|x t Hs IH Hall]; intros fuel Hfuel.
  - by destruct fuel.
  - simpl in Hfuel. destruct fuel as [|[|fuel]]; [lia|lia|].
    cbn [heap_drain heap_pop flat_map app].
    unfold fp_less at 1. rewrite Z.ltb_irrefl.
    destruct t as [|y t'].
    + cbn [heap_pop]. by destruct fuel.
    + cbn [heap_pop]. apply Forall_cons in Hall as [Hxy _].
      unfold fp_less at 1. unfold fp_lt in Hxy.
      destruct (Z.ltb_spec (Fingerprint x) (Fingerprint y)); [|lia].
      do 2 f_equal. apply IH. simpl in *. lia.
Qed.

Lemma mergeSeries_merge_self x :
  Sorted ref_le (Refs x) -> mergeSeries_merge x x = x.
Proof.
  intros Hx. rewrite mergeSeries_merge_sorted by done.
  rewrite mergeChunkSets_self. by destruct x.
Qed.

Lemma dedupe_twice L x :
  StronglySorted fp_lt (x :: L) ->
  Forall (fun e => Sorted ref_le (Refs e)) L ->
  dedupe x (flat_map (fun x => [x; x]) L) = x :: L.
Proof.
  revert x. induction L as [|y t IH]; intros x Hs Hrefs; [done|].
  apply StronglySorted_inv in Hs as [Hs Hall].
  apply Forall_cons in Hall as [Hxy _]. unfold fp_lt in Hxy.
  apply Forall_cons in Hrefs as [Hy Hrefs].
  cbn [flat_map app dedupe_next].
  assert (fp_eq y x = false) as -> by (apply fp_eq_false; lia).
  assert (fp_eq y (v1_Identity y) = true) as -> by by apply fp_eq_true.
  unfold v1_Identity. rewrite mergeSeries_merge_self by done.
  f_equal. by apply IH.
Qed.

Lemma mergeSeries_covers input buf inp e :
  inp ∈ input -> e ∈ inp ->
  exists o, o ∈ (mergeSeries input buf).1 /\ Fingerprint o = Fingerprint e /\
            forall r, r ∈ Refs e -> r ∈ Refs o.
Proof.
  intros Hinp He. rewrite mergeSeries_unfold. simpl.
  assert (e ∈ merged_stream input) as Hin by (apply merged_stream_elem_of; eauto).
  destruct (merged_stream input) as [|first rest]; simpl;
    [by apply elem_of_nil in Hin|].
  by apply dedupe_covers.
Qed.

Lemma mergeSeries_refs input buf o :
  Forall (Forall (fun e => RefsSortedNoDup (Refs e))) input ->
  o ∈ (mergeSeries input buf).1 ->
  RefsSortedNoDup (Refs o) /\
  (forall r, r ∈ Refs o <->
     exists inp e, inp ∈ input /\ e ∈ inp /\
                   Fingerprint e = Fingerprint o /\ r ∈ Refs e).
Proof.
  intros Hrefs. rewrite mergeSeries_unfold. simpl.
  pose proof (merged_stream_sorted input) as Hs.
  pose proof (merged_stream_elem_of input) as Hel.
  destruct (merged_stream input) as [|first rest]; simpl;
    [by intros ?%elem_of_nil|].
  apply StronglySorted_inv in Hs as [Hs Hall]. intros Ho.
  destruct (dedupe_refs rest (v1_Identity first) Hs Hall) with (o := o)
    as [H1 H2]; [|done|].
  { apply Forall_forall. intros e He. apply Hel in He as (inp & Hinp & He).
    apply RefsSortedNoDup_strict.
    rewrite Forall_forall in Hrefs. specialize (Hrefs _ Hinp).
    rewrite Forall_forall in Hrefs. by apply Hrefs. }
  split; [by apply RefsSortedNoDup_strict|].
  intros r. rewrite H2. unfold v1_Identity. split.
  - intros (e & He & Hfp & Hr). apply Hel in He as (inp & Hinp & He).
    by exists inp, e.
  - intros (inp & e & Hinp & He & Hfp & Hr). exists e.
    split; [|done]. apply Hel. eauto.
Qed.

(** *** Facts about the partitioning loop *)

Lemma bind_unfold {T U : Type} (m : M T) (k : T -> M U) s :
  bind m k s = k (m s).1 (m s).2.
Proof. reflexivity. Qed.

Lemma outbound_requests_app tr1 tr2 :
  outbound_requests (tr1 ++ tr2) = outbound_requests tr1 ++ outbound_requests tr2.
Proof. apply omap_app. Qed.

Lemma outbound_requests_EvAddr (keys : list string) :
  outbound_requests (map EvAddr keys) = [].
Proof. by induction keys. Qed.

Lemma partition_inv_init fp lp : partition_inv (mkPartState fp lp ∅ []).
Proof.
  split; cbn [pos servers].
  - intros a i H. by rewrite lookup_empty in H.
  - by intros [|i].
Qed.

(** The index found in [pos] is an index of [servers]: the update in
    place never falls outside the slice. *)
Lemma FilterChunks_place_inv st address bws :
  partition_inv st -> partition_inv (FilterChunks_place st address bws).
Proof.
  intros [H1 H2]. unfold FilterChunks_place.
  destruct (pos st !! address) as [idx|] eqn:Hp; split; cbn [pos servers].
  - intros a i Hi. destruct (H1 a i Hi) as (srv & Hs & Ha).
    destruct (decide (idx = i)) as [->|Hne].
    + rewrite list_lookup_alter_eq, Hs. eexists. split; [reflexivity|done].
    + rewrite list_lookup_alter_ne by done. eauto.
  - intros i srv. destruct (decide (idx = i)) as [->|Hne].
    + rewrite list_lookup_alter_eq.
      destruct (servers st !! i) as [srv0|] eqn:Hs; [|done].
      intros [= <-]. cbn [addr]. by apply H2.
    + rewrite list_lookup_alter_ne by done. apply H2.
  - intros a i. destruct (decide (address = a)) as [->|Hne].
    + rewrite lookup_insert_eq. intros [= <-].
      eexists. split; [by rewrite lookup_app_r, Nat.sub_diag by lia|].
      reflexivity.
    + rewrite lookup_insert_ne by done. intros Hi.
      destruct (H1 a i Hi) as (srv & Hs & Ha). exists srv. split; [|done].
      by apply lookup_app_l_Some.
  - intros i srv Hs. apply lookup_snoc_Some in Hs as [[Hlt Hs]|[-> <-]].
    + rewrite lookup_insert_ne; [by apply H2|].
      intros Heq. apply H2 in Hs. congruence.
    + cbn [addr]. by rewrite lookup_insert_eq.
Qed.

(** The block and its series are with the server of the address. *)
Lemma FilterChunks_place_holds st address bws :
  partition_inv st ->
  exists rs, rs ∈ servers (FilterChunks_place st address bws) /\
             addr rs = address /\ block bws ∈ blocks rs /\
             forall g, g ∈ series bws -> g ∈ groups rs.
Proof.
  intros [H1 _]. unfold FilterChunks_place.
  destruct (pos st !! address) as [idx|] eqn:Hp; cbn [servers].
  - destruct (H1 _ _ Hp) as (srv & Hs & Ha). eexists. split.
    + eapply list_elem_of_lookup_2. by rewrite list_lookup_alter_eq, Hs.
    + cbn [addr blocks groups]. split; [done|].
      split; [apply elem_of_app; right; left|].
      intros g Hg. apply elem_of_app. by right.
  - eexists. split; [apply elem_of_app; right; left|].
    cbn [addr blocks groups]. split; [done|]. split; [left|done].
Qed.

(** What the servers held before, they still hold. *)
Lemma FilterChunks_place_grows st address bws rs :
  rs ∈ servers st ->
  exists rs', rs' ∈ servers (FilterChunks_place st address bws) /\
              server_grows rs rs'.
Proof.
  intros Hrs. unfold FilterChunks_place.
  destruct (pos st !! address) as [idx|] eqn:Hp; cbn [servers].
  - apply list_elem_of_lookup_1 in Hrs as [i Hi].
    destruct (decide (idx = i)) as [->|Hne].
    + eexists. split.
      * eapply list_elem_of_lookup_2. by rewrite list_lookup_alter_eq, Hi.
      * split; [done|]. cbn [blocks groups].
        split; intros x Hx; apply elem_of_app; by left.
    + exists rs. split; [|by split].
      eapply list_elem_of_lookup_2. by rewrite list_lookup_alter_ne.
  - exists rs. split; [apply elem_of_app; by left|by split].
Qed.

Lemma server_grows_trans rs1 rs2 rs3 :
  server_grows rs1 rs2 -> server_grows rs2 rs3 -> server_grows rs1 rs3.
Proof.
  intros (Ha & Hb & Hg) (Ha' & Hb' & Hg').
  split; [congruence|]. split; eauto.
Qed.

(** When the loop ends well, [pos] and [servers] agree, the servers have
    only grown, and every block is with the server of its address,
    together with its series. *)
Lemma FilterChunks_partition_inv c blks st s st' s' :
  FilterChunks_partition c blks st s = (Ok st', s') ->
  partition_inv st ->
  partition_inv st' /\
  (forall rs, rs ∈ servers st ->
     exists rs', rs' ∈ servers st' /\ server_grows rs rs') /\
  (forall b, b ∈ blks ->
     exists rs, Addr (pool c) (block b) = Ok (addr rs) /\ rs ∈ servers st' /\
                block b ∈ blocks rs /\
                forall g, g ∈ series b -> g ∈ groups rs).
Proof.
  revert st s. induction blks as [|bws rest IH]; intros st s Hrun Hinv.
  - injection Hrun as <- <-. split; [done|]. split.
    + intros rs Hrs. exists rs. split; [done|by split].
    + by intros b ?%elem_of_nil.
  - cbn [FilterChunks_partition] in Hrun. rewrite bind_unfold in Hrun.
    cbn [emit fst snd] in Hrun.
    destruct (Addr (pool c) (block bws)) as [address|err] eqn:HA; [|done].
    destruct (IH _ _ Hrun (FilterChunks_place_inv st address bws Hinv))
      as (Hinv' & Hgrow & Hblks).
    split; [done|]. split.
    + intros rs Hrs.
      destruct (FilterChunks_place_grows st address bws rs Hrs) as (rs1 & Hrs1 & H1).
      destruct (Hgrow rs1 Hrs1) as (rs2 & Hrs2 & H2).
      exists rs2. split; [done|]. by eapply server_grows_trans.
    + intros b [->|Hb]%elem_of_cons; [|by apply Hblks].
      destruct (FilterChunks_place_holds st address bws Hinv)
        as (rs1 & Hrs1 & Ha1 & Hb1 & Hg1).
      destruct (Hgrow rs1 Hrs1) as (rs2 & Hrs2 & Ha2 & Hb2 & Hg2).
      exists rs2. rewrite HA, Ha2, Ha1. split; [done|]. split; [done|].
      split; auto.
Qed.

(** The loop ends well when the router has an address for every block. *)
Lemma FilterChunks_partition_ok c blks st s :
  Forall (fun b => exists a, Addr (pool c) (block b) = Ok a) blks ->
  exists st' s', FilterChunks_partition c blks st s = (Ok st', s').
Proof.
  intros Hall. revert st s.
  induction Hall as [|bws rest [a Ha] _ IH]; intros st s; [by eexists _, _|].
  cbn [FilterChunks_partition]. rewrite bind_unfold. cbn [emit fst snd].
  rewrite Ha. apply IH.
Qed.

(** The loop ends with an error only when the router has no address for
    one of the blocks. *)
Lemma FilterChunks_partition_err c blks st s e s' :
  FilterChunks_partition c blks st s = (Err e, s') ->
  exists b err, b ∈ blks /\ Addr (pool c) (block b) = Err err /\
                e = errors_Wrapf err ("server address for block: " +:+ block b).
Proof.
  revert st s. induction blks as [|bws rest IH]; intros st s Hrun; [done|].
  cbn [FilterChunks_partition] in Hrun. rewrite bind_unfold in Hrun.
  cbn [emit fst snd] in Hrun.
  destruct (Addr (pool c) (block bws)) as [address|err] eqn:HA.
  - destruct (IH _ _ Hrun) as (b & err & Hb & Herr & ->).
    exists b, err. split; [by right|done].
  - injection Hrun as <- _. exists bws, err. split; [by left|done].
Qed.

(** The loop stops at the first block the router cannot place; up to
    there it has only asked the router. *)
Lemma FilterChunks_partition_fail c blks st s :
  Exists (fun b => exists e, Addr (pool c) (block b) = Err e) blks ->
  exists pre b post err,
    blks = pre ++ b :: post /\
    Forall (fun b' => exists a, Addr (pool c) (block b') = Ok a) pre /\
    Addr (pool c) (block b) = Err err /\
    FilterChunks_partition c blks st s =
      (Err (errors_Wrapf err ("server address for block: " +:+ block b)),
       mkCallState (results s) (count s)
         (trace s ++ map EvAddr (map block (pre ++ [b])))).
Proof.
  revert st s. induction blks as [|bws rest IH]; intros st s Hex.
  - by apply Exists_nil in Hex.
  - cbn [FilterChunks_partition]. rewrite bind_unfold. cbn [emit fst snd].
    destruct (Addr (pool c) (block bws)) as [address|err] eqn:HA.
    + apply Exists_cons in Hex as [[e He]|Hex]; [congruence|].
      destruct (IH (FilterChunks_place st address bws)
                  (mkCallState (results s) (count s)
                     (trace s ++ [EvAddr (block bws)])) Hex)
        as (pre & b & post & err & -> & Hpre & Hb & Hrun).
      exists (bws :: pre), b, post, err.
      split; [done|]. split; [constructor; eauto|]. split; [done|].
      rewrite Hrun. cbn [results count trace]. by rewrite <- app_assoc.
    + exists [], bws, rest, err. by repeat split.
Qed.

(** *** Facts about the fan-out *)

Lemma FilterChunks_job_ok c interval plan srvs i rs cl s :
  srvs !! i = Some rs ->
  GetClientFor (pool c) (addr rs) = Ok cl ->
  exists n tr,
    FilterChunks_job c interval plan srvs i s =
      (None,
       mkCallState (<[i := shard_result interval plan rs cl]> (results s)) n tr).
Proof.
  intros Hrs Hcl. unfold FilterChunks_job, doForAddrs. rewrite Hrs.
  cbn [doForAddrs_loop]. rewrite bind_unfold. cbn [emit fst snd].
  rewrite Hcl. rewrite !bind_unfold. cbn [emit fst snd].
  unfold shard_result.
  destruct (FilterChunkRefs cl (FilterChunks_request interval rs plan));
    rewrite !bind_unfold; cbn; eauto.
Qed.

(** A job ends with an error only when the pool has no client for the
    address of its shard; the error is that of the pool. *)
Lemma FilterChunks_job_err c interval plan srvs i s e s' :
  FilterChunks_job c interval plan srvs i s = (Some e, s') ->
  exists rs, srvs !! i = Some rs /\ GetClientFor (pool c) (addr rs) = Err e.
Proof.
  unfold FilterChunks_job, doForAddrs.
  destruct (srvs !! i) as [rs|]; [|done].
  cbn [doForAddrs_loop]. rewrite bind_unfold. cbn [emit fst snd].
  destruct (GetClientFor (pool c) (addr rs)) as [cl|e0] eqn:Hcl.
  - rewrite !bind_unfold. cbn [emit fst snd].
    destruct (FilterChunkRefs cl (FilterChunks_request interval rs plan));
      rewrite !bind_unfold; cbn; done.
  - rewrite bind_unfold. cbn. intros [= <- _]. eauto.
Qed.

Lemma runJobs_err c interval plan srvs idxs s e s' :
  runJobs (FilterChunks_job c interval plan srvs) idxs s = (Some e, s') ->
  exists rs, rs ∈ srvs /\ GetClientFor (pool c) (addr rs) = Err e.
Proof.
  revert s. induction idxs as [|i rest IH]; intros s; [done|].
  cbn [runJobs]. rewrite bind_unfold.
  destruct (FilterChunks_job c interval plan srvs i s) as [[e0|] s1] eqn:Hjob;
    cbn [fst snd].
  - intros [= <- _]. apply FilterChunks_job_err in Hjob as (rs & Hrs & Hcl).
    exists rs. split; [by eapply list_elem_of_lookup_2|done].
  - apply IH.
Qed.

(** When every shard gets a client, every job ends without an error and
    has filled its slot. *)
Lemma runJobs_ok c interval plan srvs :
  (forall rs, rs ∈ srvs -> exists cl, GetClientFor (pool c) (addr rs) = Ok cl) ->
  forall m k s,
    (k + m <= length srvs)%nat -> length (results s) = length srvs ->
    exists s',
      runJobs (FilterChunks_job c interval plan srvs) (seq k m) s = (None, s') /\
      length (results s') = length srvs /\
      (forall i rs cl, (k <= i < k + m)%nat -> srvs !! i = Some rs ->
         GetClientFor (pool c) (addr rs) = Ok cl ->
         results s' !! i = Some (shard_result interval plan rs cl)) /\
      (forall i, (i < k)%nat -> results s' !! i = results s !! i).
Proof.
  intros Hclients. induction m as [|m IH]; intros k s Hk Hlen.
  - exists s. split; [done|]. split; [done|]. split; [intros; lia|done].
  - cbn [seq runJobs]. rewrite bind_unfold.
    destruct (lookup_lt_is_Some_2 srvs k) as [rs Hrs]; [lia|].
    destruct (Hclients rs) as [cl Hcl]; [by eapply list_elem_of_lookup_2|].
    destruct (FilterChunks_job_ok c interval plan srvs k rs cl s Hrs Hcl)
      as (n & tr & ->). cbn [fst snd].
    destruct (IH (S k) (mkCallState (<[k := shard_result interval plan rs cl]> (results s)) n tr))
      as (s' & Hrun & Hlen' & Hin & Hout).
    { lia. }
    { cbn [results]. by rewrite length_insert. }
    exists s'. split; [done|]. split; [done|]. cbn [results] in Hout. split.
    + intros i rs' cl' Hi Hrs' Hcl'.
      destruct (decide (i = k)) as [->|Hne].
      * rewrite Hout by lia. rewrite list_lookup_insert_eq by lia.
        congruence.
      * apply Hin; [lia|done..].
    + intros i Hi. rewrite Hout by lia. by rewrite list_lookup_insert_ne by lia.
Qed.

(** *** Facts about [FilterChunks] *)

(** Where the error of a call comes from: the router, the context, or the
    pool that has no client for a shard.  The error of a filter request
    is none of them. *)
Lemma FilterChunks_error_sources c ctx tenant interval blks plan s out e s' :
  FilterChunks c ctx tenant interval blks plan s = ((out, Some e), s') ->
  out = None /\
  ((exists b err, b ∈ blks /\ Addr (pool c) (block b) = Err err /\
      e = errors_Wrapf err ("server address for block: " +:+ block b)) \/
   ctx_Err ctx = Some e \/
   (exists st s1 rs,
      FilterChunks_partition c blks (mkPartState math_MaxUint64 0 ∅ []) s =
        (Ok st, s1) /\
      rs ∈ servers st /\ GetClientFor (pool c) (addr rs) = Err e)).
Proof.
  unfold FilterChunks. destruct blks as [|b0 rest]; [done|].
  cbn [length Nat.eqb]. rewrite bind_unfold.
  destruct (FilterChunks_partition c (b0 :: rest)
              (mkPartState math_MaxUint64 0 ∅ []) s) as [[st|e0] s1] eqn:Hpart;
    cbn [fst snd].
  - rewrite !bind_unfold. cbn [set_results set_count fst snd].
    unfold concurrency_ForEachJob.
    destruct (length (servers st) =? 0)%nat; [done|].
    destruct (ctx_Err ctx) as [e1|] eqn:Hctx.
    + cbn. intros [= <- <- _]. auto.
    + match goal with
      | |- context [runJobs ?j ?l ?s0] =>
          destruct (runJobs j l s0) as [[e1|] s2] eqn:Hrun
      end; cbn [fst snd]; [|done].
      cbn. intros [= <- <- _]. split; [done|]. right. right.
      apply runJobs_err in Hrun as (rs & Hrs & Hcl). eauto 6.
  - cbn. intros [= <- <- _]. split; [done|]. left.
    by eapply FilterChunks_partition_err.
Qed.

(** With a live context, every block placed and a client for every shard,
    the call ends without an error and every slot of [results] holds what
    its shard left there. *)
Lemma FilterChunks_run_ok c ctx tenant interval blks plan s st s1 :
  blks <> [] ->
  ctx_Err ctx = None ->
  FilterChunks_partition c blks (mkPartState math_MaxUint64 0 ∅ []) s =
    (Ok st, s1) ->
  (forall rs, rs ∈ servers st ->
              exists cl, GetClientFor (pool c) (addr rs) = Ok cl) ->
  exists s',
    FilterChunks c ctx tenant interval blks plan s =
      ((Some (mergeSeries (results s') []).1, None), s') /\
    forall i rs cl, servers st !! i = Some rs ->
      GetClientFor (pool c) (addr rs) = Ok cl ->
      results s' !! i = Some (shard_result interval plan rs cl).
Proof.
  intros Hne Hctx Hpart Hclients.
  unfold FilterChunks. destruct blks as [|b0 rest]; [done|].
  cbn [length Nat.eqb]. rewrite bind_unfold, Hpart. cbn [fst snd].
  rewrite !bind_unfold. cbn [set_results set_count fst snd results count trace].
  unfold concurrency_ForEachJob. rewrite Hctx.
  set (s2 := mkCallState (replicate (length (servers st)) []) 0 (trace s1)).
  assert (exists s',
            (if (length (servers st) =? 0)%nat then ret None
             else runJobs (FilterChunks_job c interval plan (servers st))
                    (seq 0 (length (servers st)))) s2 = (None, s') /\
            forall i rs cl, servers st !! i = Some rs ->
              GetClientFor (pool c) (addr rs) = Ok cl ->
              results s' !! i = Some (shard_result interval plan rs cl))
    as (s' & -> & Hslots).
  { destruct (Nat.eqb_spec (length (servers st)) 0) as [Hz|Hnz].
    - exists s2. split; [done|]. intros i rs cl Hrs.
      apply lookup_lt_Some in Hrs. lia.
    - destruct (runJobs_ok c interval plan (servers st) Hclients
                  (length (servers st)) 0%nat s2) as (s' & Hrun & _ & Hin & _).
      { lia. }
      { subst s2. cbn [results]. by rewrite length_replicate. }
      exists s'. split; [done|]. intros i rs cl Hrs Hcl.
      apply (Hin i rs cl); [|done..]. apply lookup_lt_Some in Hrs. lia. }
  cbn [fst snd get_results ret].
  exists s'. split; [reflexivity|done].
Qed.

(** *** The statements of the specification *)

(** **** C1: the output of [mergeSeries] is strictly ascending

    Whatever per-shard lists are given to [mergeSeries], each sorted
    ascending by fingerprint, the returned list is sorted strictly
    ascending by fingerprint and holds at most one entry per
    fingerprint.  ([mergeSeries] sorts every list itself before merging,
    so the proof has no use for the order of the input.) *)
Theorem mergeSeries_sorted_unique
    (input : list (list GroupedChunkRefs)) (buf : list GroupedChunkRefs) :
  Forall (Sorted fp_le) input ->
  (mergeSeries input buf).2 = None /\
  StronglySorted fp_lt (mergeSeries input buf).1 /\
  NoDup (map Fingerprint (mergeSeries input buf).1).
Proof.
  intros _. split; [done|].
  split; [apply mergeSeries_strict|apply fp_lt_NoDup, mergeSeries_strict].
Qed.

(** **** C2: the merged entry carries the union of the references

    When the per-shard lists are sorted by fingerprint and every entry
    has sorted, duplicate-free references, every fingerprint of the
    input has exactly one entry in the output, and the references of
    that entry are sorted, duplicate-free and exactly the references of
    all the input entries of that fingerprint.  Merging
    [{10, [c1; c2]}] of one shard with [{10, [c2; c3]}] of another gives
    the single entry [{10, [c1; c2; c3]}]. *)
Theorem mergeSeries_refs_union :
  (forall (input : list (list GroupedChunkRefs)) (buf : list GroupedChunkRefs),
     Forall (Sorted fp_le) input ->
     Forall (Forall (fun e => RefsSortedNoDup (Refs e))) input ->
     forall inp e, inp ∈ input -> e ∈ inp ->
     exists o,
       o ∈ (mergeSeries input buf).1 /\
       Fingerprint o = Fingerprint e /\
       (forall o', o' ∈ (mergeSeries input buf).1 ->
                   Fingerprint o' = Fingerprint e -> o' = o) /\
       RefsSortedNoDup (Refs o) /\
       (forall r, r ∈ Refs o <->
          exists inp' e', inp' ∈ input /\ e' ∈ inp' /\
                          Fingerprint e' = Fingerprint e /\ r ∈ Refs e')) /\
  (forall (c1 c2 c3 : ShortRef) (t1 t2 : string) (buf : list GroupedChunkRefs),
     ref_lt c1 c2 -> ref_lt c2 c3 ->
     exists t,
       mergeSeries [[mkGroup 10 t1 [c1; c2]]; [mkGroup 10 t2 [c2; c3]]] buf =
         ([mkGroup 10 t [c1; c2; c3]], None)).
Proof.
  split.
  - intros input buf _ Hrefs inp e Hinp He.
    destruct (mergeSeries_covers input buf inp e Hinp He) as (o & Ho & Hfp & _).
    exists o. split; [done|]. split; [done|]. split.
    + intros o' Ho' Hfp'.
      apply (fp_strict_unique _ _ _ (mergeSeries_strict input buf) Ho' Ho).
      congruence.
    + destruct (mergeSeries_refs input buf o Hrefs Ho) as [H1 H2].
      split; [done|]. intros r. rewrite H2. by rewrite Hfp.
  - intros c1 c2 c3 t1 t2 buf H12 H23. exists t2.
    rewrite mergeSeries_unfold. f_equal.
    change (merged_stream [[mkGroup 10 t1 [c1; c2]]; [mkGroup 10 t2 [c2; c3]]])
      with [mkGroup 10 t1 [c1; c2]; mkGroup 10 t2 [c2; c3]].
    change ([mergeSeries_merge (mkGroup 10 t2 [c2; c3]) (mkGroup 10 t1 [c1; c2])] =
            [mkGroup 10 t2 [c1; c2; c3]]).
    rewrite mergeSeries_merge_sorted; cbn [Fingerprint Tenant Refs].
    + rewrite mergeChunkSets_cons.
      assert (Equal c2 c1 = false) as ->.
      { apply not_true_is_false. intros ->%Equal_eq. by apply (ref_lt_ne c1 c1). }
      rewrite (ref_lt_le _ _ H12).
      rewrite mergeChunkSets_cons.
      assert (Equal c2 c2 = true) as -> by by apply Equal_eq.
      by rewrite mergeChunkSets_nil_r.
    + repeat constructor. by apply ref_lt_le.
    + repeat constructor. by apply ref_lt_le.
Qed.

(** **** C3: the union-merge of two sorted, duplicate-free slices

    For slices [A] and [B] of chunk references, each sorted ascending
    and duplicate-free under a strict total comparator,
    [mergeChunkSets A B] is sorted and duplicate-free, its length lies
    between [max |A| |B|] and [|A| + |B|], and its elements are exactly
    those of [A] together with those of [B]. *)
Theorem mergeChunkSets_union (A B : list ShortRef) :
  RefsSortedNoDup A -> RefsSortedNoDup B ->
  RefsSortedNoDup (mergeChunkSets A B) /\
  (Nat.max (length A) (length B) <= length (mergeChunkSets A B))%nat /\
  (length (mergeChunkSets A B) <= length A + length B)%nat /\
  (forall x, x ∈ mergeChunkSets A B <-> x ∈ A \/ x ∈ B).
Proof.
  intros HA HB. split; [|split; [|split]].
  - apply RefsSortedNoDup_strict, mergeChunkSets_strict;
      by apply RefsSortedNoDup_strict.
  - apply mergeChunkSets_length_ge.
  - apply mergeChunkSets_length_le.
  - apply mergeChunkSets_elem_of.
Qed.

(** **** C4: a shard without a client fails the call

    One block, routed to an address for which the pool has no client:
    [FilterChunks] returns a nil result and the error of
    [GetClientFor], having sent no request. *)
Theorem FilterChunks_connection_error
    (e : error) (series1 : list GroupedChunkRefs) (tenant : string)
    (interval : Interval) (plan : QueryPlan) (s : callState) :
  FilterChunks
    (mkGatewayClient (mkPool (fun _ => Ok "addr1") (fun _ => Err e)))
    (mkContext None) tenant interval
    [mkBlockWithSeries "block1" series1] plan s =
  ((None, Some e),
   mkCallState [[]] 0
     (trace s ++
      [EvAddr "block1"; EvGetClientFor "addr1";
       EvLogError "failed to get client for instance" "addr1"])).
Proof.
  unfold FilterChunks. cbn [length Nat.eqb].
  rewrite bind_unfold. cbn [FilterChunks_partition].
  rewrite bind_unfold. cbn [emit fst snd pool Addr].
  unfold FilterChunks_place. cbn [pos]. rewrite lookup_empty.
  cbn [FilterChunks_partition ret fst snd servers app length].
  rewrite !bind_unfold. cbn. by rewrite <- !app_assoc.
Qed.

(** **** C5: a failed request beside a shard without a client

    Two blocks on two addresses.  The gateway of the first shard fails
    every filter request; the pool has no client for the second.  The
    first shard is handled as the code announces (the failure is counted
    once with the error label and does not end its job), and still
    [FilterChunks] returns a nil result and the error of [GetClientFor]
    for the second shard: the groups of the first shard are returned to
    nobody. *)
Theorem FilterChunks_fail_open_undone
    (e1 e2 : error) (series1 series2 : list GroupedChunkRefs) (tenant : string)
    (interval : Interval) (plan : QueryPlan) (s : callState) :
  let gw1 := mkClient (fun _ => Err e1) in
  let c :=
    mkGatewayClient
      (mkPool
         (fun key => if String.eqb key "block1" then Ok "addr1" else Ok "addr2")
         (fun a => if String.eqb a "addr1" then Ok gw1 else Err e2)) in
  let run :=
    FilterChunks c (mkContext None) tenant interval
      [mkBlockWithSeries "block1" series1; mkBlockWithSeries "block2" series2]
      plan s in
  run.1 = (None, Some e2) /\
  exists tr, trace run.2 = trace s ++ tr /\ clientRequests typeError tr = 1%nat.
Proof.
  intros gw1 c run. subst run c gw1.
  split; [vm_compute; reflexivity|].
  set (req := FilterChunks_request interval
                (mkAddrWithGroups "addr1" ["block1"] series1) plan).
  exists [EvAddr "block1"; EvAddr "block2"; EvGetClientFor "addr1";
          EvFilterChunkRefs "addr1" req;
          EvLogError "filter failed for instance, skipping" "addr1";
          EvClientRequests typeError;
          EvGetClientFor "addr2";
          EvLogError "failed to get client for instance" "addr2"].
  split; [|reflexivity].
  transitivity
    ((((((((trace s ++ [EvAddr "block1"]) ++ [EvAddr "block2"]) ++
          [EvGetClientFor "addr1"]) ++ [EvFilterChunkRefs "addr1" req]) ++
        [EvLogError "filter failed for instance, skipping" "addr1"]) ++
       [EvClientRequests typeError]) ++ [EvGetClientFor "addr2"]) ++
     [EvLogError "failed to get client for instance" "addr2"]).
  - subst req. vm_compute. reflexivity.
  - by rewrite <- !app_assoc.
Qed.

(** **** C6: no block, no work

    With an empty list of blocks [FilterChunks] returns [(nil, nil)] at
    once: the router is not asked and no request is sent. *)
Theorem FilterChunks_no_blocks
    (c : GatewayClient) (ctx : Context) (tenant : string)
    (interval : Interval) (plan : QueryPlan) (s : callState) :
  FilterChunks c ctx tenant interval [] plan s = ((None, None), s).
Proof. reflexivity. Qed.

(** **** C7: a block that cannot be routed fails the call

    For a non-empty list of blocks, when the router has no address for
    some block, [FilterChunks] returns a nil result and the router's
    error for the first such block, wrapped with the name of the block;
    it has asked the router for the blocks up to that one and done
    nothing else, in particular sent no request. *)
Theorem FilterChunks_routing_error
    (c : GatewayClient) (ctx : Context) (tenant : string)
    (interval : Interval) (blks : list blockWithSeries) (plan : QueryPlan)
    (s : callState) :
  blks <> [] ->
  Exists (fun b => exists e, Addr (pool c) (block b) = Err e) blks ->
  exists pre b post err,
    blks = pre ++ b :: post /\
    Forall (fun b' => exists a, Addr (pool c) (block b') = Ok a) pre /\
    Addr (pool c) (block b) = Err err /\
    FilterChunks c ctx tenant interval blks plan s =
      ((None,
        Some (errors_Wrapf err ("server address for block: " +:+ block b))),
       mkCallState (results s) (count s)
         (trace s ++ map EvAddr (map block (pre ++ [b])))) /\
    outbound_requests (trace (FilterChunks c ctx tenant interval blks plan s).2) =
      outbound_requests (trace s).
Proof.
  intros Hne Hex. unfold FilterChunks.
  destruct blks as [|b0 rest]; [done|]. cbn [length Nat.eqb].
  rewrite bind_unfold.
  destruct (FilterChunks_partition_fail c (b0 :: rest)
              (mkPartState math_MaxUint64 0 ∅ []) s Hex)
    as (pre & b & post & err & Hsplit & Hpre & Hb & Hrun).
  exists pre, b, post, err. rewrite Hrun. cbn [fst snd ret trace].
  repeat split; [done..|].
  by rewrite outbound_requests_app, outbound_requests_EvAddr, app_nil_r.
Qed.

(** **** C8: merging a result list with itself

    For a list [L] sorted ascending by fingerprint and free of duplicate
    fingerprints, whose entries have sorted, duplicate-free references,
    [mergeSeries [L; L]] returns [L] itself: the same fingerprints, each
    entry with its original references. *)
Theorem mergeSeries_idempotent
    (L : list GroupedChunkRefs) (buf : list GroupedChunkRefs) :
  Sorted fp_le L -> NoDup (map Fingerprint L) ->
  Forall (fun e => RefsSortedNoDup (Refs e)) L ->
  mergeSeries [L; L] buf = (L, None) /\
  map Fingerprint (mergeSeries [L; L] buf).1 = map Fingerprint L /\
  map Refs (mergeSeries [L; L] buf).1 = map Refs L.
Proof.
  intros Hs Hn Hrefs.
  assert (mergeSeries [L; L] buf = (L, None)) as Hm; [|by rewrite Hm].
  pose proof (fp_sorted_NoDup_strict L Hs Hn) as Hstrict.
  rewrite mergeSeries_unfold. f_equal.
  assert (sort_Slice fp_less L = L) as Hsort.
  { apply sort_Slice_sorted_id.
    eapply Sorted_ind with (P := Sorted _); [constructor| |exact Hs].
    intros a t _ IH Hhd. constructor; [done|].
    destruct Hhd as [|b t' Hab]; constructor.
    unfold fp_le in Hab. unfold fp_less. apply Z.ltb_ge. lia. }
  simpl. rewrite Hsort. unfold v1_NewHeapIterator.
  rewrite heap_drain_twice; [|done|simpl; rewrite !length_app; simpl; lia].
  destruct L as [|x t]; [done|].
  cbn [flat_map app v1_NewDedupingIter dedupe_next].
  apply Forall_cons in Hrefs as [[Hx _] Hrefs].
  assert (fp_eq x (v1_Identity x) = true) as -> by by apply fp_eq_true.
  unfold v1_Identity. rewrite mergeSeries_merge_self by done.
  apply dedupe_twice; [done|].
  eapply Forall_impl; [exact Hrefs|]. by intros e [He _].
Qed.

(** **** C9: the tenant is not used

    Two calls of [FilterChunks] that differ in the tenant only return
    the same result and send the same filter requests. *)
Theorem FilterChunks_tenant_irrelevant
    (c : GatewayClient) (ctx : Context) (tenant1 tenant2 : string)
    (interval : Interval) (blks : list blockWithSeries) (plan : QueryPlan)
    (s : callState) :
  (FilterChunks c ctx tenant1 interval blks plan s).1 =
    (FilterChunks c ctx tenant2 interval blks plan s).1 /\
  outbound_requests (trace (FilterChunks c ctx tenant1 interval blks plan s).2) =
    outbound_requests (trace (FilterChunks c ctx tenant2 interval blks plan s).2).
Proof. split; reflexivity. Qed.

(** **** C10: [doForAddrs] without candidates

    Whatever the callback, [doForAddrs] called with no address returns
    the nil error and leaves everything as it was: the callback does not
    run. *)
Theorem doForAddrs_no_candidate
    (c : GatewayClient) (fn : BloomGatewayClient -> M (option error))
    (s : callState) :
  doForAddrs c [] fn s = (None, s).
Proof. reflexivity. Qed.

(** *** Further properties of [mergeChunkSets] *)

(** A strictly ascending slice is determined by its elements. *)
Lemma refs_strict_ext l1 l2 :
  StronglySorted ref_lt l1 -> StronglySorted ref_lt l2 ->
  (forall x, x ∈ l1 <-> x ∈ l2) -> l1 = l2.
Proof.
  intros H1 H2 Hext.
  apply (StronglySorted_unique_strong ref_lt); [|done..|].
  - intros x1 x2 _ _ H12 H21. exfalso.
    apply (ref_lt_ne x1 x1); [|done]. by eapply Less_trans.
  - apply NoDup_Permutation; [| |done]; by apply RefsSortedNoDup_strict.
Qed.

Lemma mergeChunkSets_sublist_l s1 s2 : s1 `sublist_of` mergeChunkSets s1 s2.
Proof.
  pattern s1, s2, (mergeChunkSets s1 s2).
  apply mergeChunkSets_ind; clear s1 s2.
  - intros s2. apply sublist_nil_l.
  - done.
  - intros a t1 b t2 _ IH. by apply sublist_skip.
  - intros a t1 b t2 _ _ IH. by apply sublist_skip.
  - intros a t1 b t2 _ _ IH. by apply sublist_cons.
Qed.

Lemma mergeChunkSets_sublist_r s1 s2 : s2 `sublist_of` mergeChunkSets s1 s2.
Proof.
  pattern s1, s2, (mergeChunkSets s1 s2).
  apply mergeChunkSets_ind; clear s1 s2.
  - done.
  - intros a t1. apply sublist_nil_l.
  - intros a t1 b t2 E IH. apply Equal_eq in E as <-. by apply sublist_skip.
  - intros a t1 b t2 _ _ IH. by apply sublist_cons.
  - intros a t1 b t2 _ _ IH. by apply sublist_skip.
Qed.

(** **** X1: [mergeChunkSets] keeps both inputs in order

    Whatever the two slices, sorted or not, each of them is a subsequence
    of the result: the loop drops no element of either side and never
    reorders one, so an element repeated within one slice stays
    repeated. *)
Theorem mergeChunkSets_keeps_inputs (A B : list ShortRef) :
  A `sublist_of` mergeChunkSets A B /\ B `sublist_of` mergeChunkSets A B.
Proof. split; [apply mergeChunkSets_sublist_l|apply mergeChunkSets_sublist_r]. Qed.

(** **** X2: [mergeChunkSets] is commutative on sorted sets

    For two slices that are sorted and duplicate-free, the order of the
    arguments does not matter. *)
Theorem mergeChunkSets_comm (A B : list ShortRef) :
  RefsSortedNoDup A -> RefsSortedNoDup B ->
  mergeChunkSets A B = mergeChunkSets B A.
Proof.
  intros HA%RefsSortedNoDup_strict HB%RefsSortedNoDup_strict.
  apply refs_strict_ext; [by apply mergeChunkSets_strict..|].
  intros x. rewrite !mergeChunkSets_elem_of. split; intros [H|H]; auto.
Qed.

(** **** X3: [mergeChunkSets] is associative on sorted sets

    Three sorted, duplicate-free slices can be merged in either
    grouping; this is what lets the deduplicating stage fold a run of
    more than two entries pairwise. *)
Theorem mergeChunkSets_assoc (A B C : list ShortRef) :
  RefsSortedNoDup A -> RefsSortedNoDup B -> RefsSortedNoDup C ->
  mergeChunkSets A (mergeChunkSets B C) = mergeChunkSets (mergeChunkSets A B) C.
Proof.
  intros HA%RefsSortedNoDup_strict HB%RefsSortedNoDup_strict
         HC%RefsSortedNoDup_strict.
  apply refs_strict_ext; [by repeat apply mergeChunkSets_strict..|].
  intros x. rewrite !mergeChunkSets_elem_of. split.
  - intros [H|[H|H]]; auto.
  - intros [[H|H]|H]; auto.
Qed.

(** **** X4: merging a sorted set into one that contains it

    When every element of the sorted, duplicate-free slice [A] is in the
    sorted, duplicate-free slice [B], merging them on either side gives
    [B] back; in particular the empty slice is neutral and merging a
    slice with itself changes nothing. *)
Theorem mergeChunkSets_absorb (A B : list ShortRef) :
  RefsSortedNoDup A -> RefsSortedNoDup B ->
  (forall x, x ∈ A -> x ∈ B) ->
  mergeChunkSets A B = B /\ mergeChunkSets B A = B.
Proof.
  intros HA%RefsSortedNoDup_strict HB%RefsSortedNoDup_strict Hsub.
  split; (apply refs_strict_ext; [by apply mergeChunkSets_strict|done|]);
    intros x; rewrite mergeChunkSets_elem_of; split.
  - intros [H|H]; auto.
  - auto.
  - intros [H|H]; auto.
  - auto.
Qed.

(** *** Further properties of [mergeSeries] *)

Lemma sort_Slice_total_sorted {E : Type} (less : E -> E -> bool) l :
  (forall a b, less a b = true -> less b a = false) ->
  Sorted (fun a b => less b a = false) (sort_Slice less l).
Proof.
  intros Hasym. induction l as [|a t IH]; simpl; [constructor|].
  induction IH as [|b t' Hs IH' Hhd]; simpl; [by repeat constructor|].
  destruct (less b a) eqn:Hba.
  - constructor; [done|].
    destruct Hhd as [|c t'' Hbc]; simpl; [constructor; by apply Hasym|].
    destruct (less c a); constructor; [done|by apply Hasym].
  - constructor; [by constructor|by constructor].
Qed.

Lemma Sorted_weaken {E : Type} (R R' : E -> E -> Prop) l :
  (forall a b, R a b -> R' a b) -> Sorted R l -> Sorted R' l.
Proof.
  intros Himp. induction 1 as [|a t Hs IH Hhd]; constructor; [done|].
  destruct Hhd; constructor. by apply Himp.
Qed.

Lemma slices_SortFunc_sorted l : Sorted ref_le (slices_SortFunc l Cmp).
Proof.
  unfold slices_SortFunc.
  eapply Sorted_weaken;
    [|apply (sort_Slice_total_sorted (fun a b => Cmp a b <? 0))].
  - intros a b Hab. unfold ref_le. by rewrite <- Cmp_Less.
  - intros a b. rewrite !Cmp_Less. apply ref_lt_le.
Qed.

Lemma ref_le_trans a b c : ref_le a b -> ref_le b c -> ref_le a c.
Proof.
  unfold ref_le. intros Hab Hbc.
  destruct (Less c a) eqn:Hca; [|done].
  destruct (Less_total a b) as [H|[->|H]]; [|congruence..].
  by rewrite (Less_trans _ _ _ Hca H) in Hbc.
Qed.

#[local] Instance ref_le_transitive : Transitive ref_le.
Proof. intros a b c. apply ref_le_trans. Qed.

(** The union-merge of two sorted slices is sorted, duplicates or not. *)
Lemma mergeChunkSets_sorted s1 s2 :
  Sorted ref_le s1 -> Sorted ref_le s2 -> Sorted ref_le (mergeChunkSets s1 s2).
Proof.
  intros H1%Sorted_StronglySorted H2%Sorted_StronglySorted; [|apply _..].
  apply StronglySorted_Sorted. revert H1 H2.
  pattern s1, s2, (mergeChunkSets s1 s2).
  apply mergeChunkSets_ind; clear s1 s2.
  - done.
  - done.
  - intros a t1 b t2 E IH H1 H2. apply Equal_eq in E as <-.
    apply StronglySorted_inv in H1 as [H1 A1].
    apply StronglySorted_inv in H2 as [H2 A2].
    constructor; [by apply IH|]. rewrite Forall_forall in A1, A2 |- *.
    intros x Hx. apply mergeChunkSets_elem_of_inv in Hx as [Hx|Hx]; auto.
  - intros a t1 b t2 _ L IH H1 H2.
    apply StronglySorted_inv in H1 as [H1 A1].
    pose proof H2 as H2'. apply StronglySorted_inv in H2' as [_ A2].
    constructor; [by apply IH|]. rewrite Forall_forall in A1, A2 |- *.
    intros x Hx. apply mergeChunkSets_elem_of_inv in Hx as [Hx|Hx]; [auto|].
    apply elem_of_cons in Hx as [->|Hx]; [by apply ref_lt_le|].
    eapply ref_le_trans; [by apply ref_lt_le|by apply A2].
  - intros a t1 b t2 _ L IH H1 H2.
    pose proof H1 as H1'. apply StronglySorted_inv in H1' as [_ A1].
    apply StronglySorted_inv in H2 as [H2 A2].
    constructor; [by apply IH|]. rewrite Forall_forall in A1, A2 |- *.
    intros x Hx. apply mergeChunkSets_elem_of_inv in Hx as [Hx|Hx]; [|auto].
    apply elem_of_cons in Hx as [->|Hx]; [done|].
    eapply ref_le_trans; [exact L|by apply A1].
Qed.

Lemma mergeSeries_merge_Refs_sorted a b : Sorted ref_le (Refs (mergeSeries_merge a b)).
Proof.
  unfold mergeSeries_merge. cbn [Refs].
  apply mergeChunkSets_sorted.
  - destruct (slices_IsSortedFunc (Refs a) Cmp) eqn:E; cbn [negb].
    + apply isSorted_Sorted in E. eapply Sorted_weaken; [|exact E].
      intros x y Hxy. unfold ref_le. by rewrite <- Cmp_Less.
    + apply slices_SortFunc_sorted.
  - destruct (slices_IsSortedFunc (Refs b) Cmp) eqn:E; cbn [negb].
    + apply isSorted_Sorted in E. eapply Sorted_weaken; [|exact E].
      intros x y Hxy. unfold ref_le. by rewrite <- Cmp_Less.
    + apply slices_SortFunc_sorted.
Qed.

Lemma mergeSeries_merge_Refs_inv a b r :
  r ∈ Refs (mergeSeries_merge a b) -> r ∈ Refs a \/ r ∈ Refs b.
Proof.
  unfold mergeSeries_merge, slices_SortFunc. cbn [Refs].
  intros [H|H]%mergeChunkSets_elem_of_inv; [left|right];
    match type of H with _ ∈ (if ?c then _ else _) => destruct c end;
    by rewrite ?sort_Slice_perm in H.
Qed.

(** What holds of the entry being built and of the stream, and is kept
    by [merge], holds of every entry of the output. *)
Lemma dedupe_Forall (Q : GroupedChunkRefs -> Prop) l tmp :
  (forall a b, Q a -> Q b -> Q (mergeSeries_merge a b)) ->
  Q tmp -> Forall Q l -> Forall Q (dedupe tmp l).
Proof.
  intros Hm. revert tmp. induction l as [|next rest IH]; intros tmp Ht Hl; simpl.
  - by constructor.
  - apply Forall_cons in Hl as [Hn Hl]. destruct (fp_eq next tmp).
    + apply IH; [by apply Hm|done].
    + constructor; [done|]. by apply IH.
Qed.

(** An entry of the output owes its fingerprint, its tenant and each of
    its references to entries of the stream. *)
Lemma dedupe_from l tmp o :
  o ∈ dedupe tmp l ->
  (exists e, e ∈ tmp :: l /\ Fingerprint e = Fingerprint o /\ Tenant e = Tenant o) /\
  (forall r, r ∈ Refs o ->
     exists e, e ∈ tmp :: l /\ Fingerprint e = Fingerprint o /\ r ∈ Refs e).
Proof.
  revert tmp. induction l as [|next rest IH]; intros tmp; simpl.
  - intros ->%list_elem_of_singleton. split.
    + exists tmp. split; [by left|done].
    + intros r Hr. exists tmp. split; [by left|done].
  - destruct (fp_eq next tmp) eqn:E.
    + apply fp_eq_true in E. intros Ho.
      destruct (IH _ Ho) as [(e & He & Hfp & Hten) Hrefs]. split.
      * apply elem_of_cons in He as [->|He].
        -- exists next. split; [right; by left|done].
        -- exists e. split; [by do 2 right|done].
      * intros r Hr. destruct (Hrefs r Hr) as (e' & He' & Hfp' & Hr').
        apply elem_of_cons in He' as [->|He'].
        -- cbn [Fingerprint mergeSeries_merge] in Hfp'.
           apply mergeSeries_merge_Refs_inv in Hr' as [Hr'|Hr'].
           ++ exists next. split; [right; by left|done].
           ++ exists tmp. split; [by left|]. split; [congruence|done].
        -- exists e'. split; [by do 2 right|done].
    + intros [->|Ho]%elem_of_cons.
      * split; [exists tmp|intros r Hr; exists tmp]; (split; [by left|done]).
      * destruct (IH _ Ho) as [(e & He & Hfp & Hten) Hrefs]. split.
        -- exists e. split; [by right|done].
        -- intros r Hr. destruct (Hrefs r Hr) as (e' & He' & Hfp' & Hr').
           exists e'. split; [by right|done].
Qed.

Lemma dedupe_length l tmp : (length (dedupe tmp l) <= S (length l))%nat.
Proof.
  revert tmp. induction l as [|next rest IH]; intros tmp; simpl; [lia|].
  destruct (fp_eq next tmp); simpl.
  - specialize (IH (mergeSeries_merge next tmp)). lia.
  - specialize (IH (v1_Identity next)). lia.
Qed.

(** An entry whose fingerprint no other entry of the stream has is left
    as it is. *)
Lemma dedupe_alone l tmp e :
  e ∈ tmp :: l ->
  length (filter (fun e' => Fingerprint e' = Fingerprint e) (tmp :: l)) = 1%nat ->
  e ∈ dedupe tmp l.
Proof.
  revert tmp. induction l as [|next rest IH]; intros tmp He Hone; simpl.
  - apply list_elem_of_singleton in He as ->. by left.
  - destruct (fp_eq next tmp) eqn:E.
    + apply fp_eq_true in E.
      assert (Fingerprint tmp <> Fingerprint e) as Hne.
      { intros Heq. rewrite filter_cons_True in Hone by done.
        rewrite filter_cons_True in Hone by congruence. simpl in Hone. lia. }
      rewrite filter_cons_False in Hone by done.
      rewrite filter_cons_False in Hone by congruence.
      apply elem_of_cons in He as [->|He]; [done|].
      apply elem_of_cons in He as [->|He]; [congruence|].
      apply IH; [by right|].
      rewrite filter_cons_False; [done|]. cbn [Fingerprint mergeSeries_merge]. congruence.
    + apply elem_of_cons in He as [->|He]; [by left|]. right.
      apply IH; [done|].
      destruct (decide (Fingerprint tmp = Fingerprint e)) as [Heq|Hne].
      * rewrite filter_cons_True in Hone by done. simpl in Hone.
        assert (filter (fun e' => Fingerprint e' = Fingerprint e) (next :: rest) = [])
          as Hnil by (apply nil_length_inv; lia).
        by apply (filter_nil_not_elem_of _ _ e) in Hnil.
      * by rewrite filter_cons_False in Hone.
Qed.

Lemma heap_drain_single (L : list GroupedChunkRefs) fuel :
  (length L <= fuel)%nat -> heap_drain fp_less fuel [L] = L.
Proof.
  revert fuel. induction L as [|x t IH]; intros fuel Hfuel.
  - by destruct fuel.
  - simpl in Hfuel. destruct fuel as [|fuel]; [lia|].
    cbn [heap_drain heap_pop]. f_equal. apply IH. lia.
Qed.

Lemma dedupe_strict L x :
  StronglySorted fp_lt (x :: L) -> dedupe x L = x :: L.
Proof.
  revert x. induction L as [|y t IH]; intros x Hs; [done|].
  apply StronglySorted_inv in Hs as [Hs Hall].
  apply Forall_cons in Hall as [Hxy _]. unfold fp_lt in Hxy.
  cbn [dedupe_next].
  assert (fp_eq y x = false) as -> by (apply fp_eq_false; lia).
  f_equal. by apply IH.
Qed.

Lemma merged_stream_perm input : merged_stream input ≡ₚ concat input.
Proof.
  rewrite v1_NewHeapIterator_perm.
  induction input as [|inp rest IH]; simpl; [done|].
  by rewrite IH, sort_Slice_perm.
Qed.

Lemma mergeSeries_length input buf :
  (length (mergeSeries input buf).1 <= length (concat input))%nat.
Proof.
  rewrite mergeSeries_unfold. cbn [fst].
  rewrite <- (Permutation_length (merged_stream_perm input)).
  destruct (merged_stream input) as [|first rest]; simpl; [lia|].
  apply dedupe_length.
Qed.

(** **** X5: [mergeSeries] neither loses nor invents a fingerprint

    Whatever the input, the fingerprints of the output are exactly the
    fingerprints of the input entries, and the output has no more entries
    than the input; so an input without entries gives an empty output. *)
Theorem mergeSeries_fingerprints
    (input : list (list GroupedChunkRefs)) (buf : list GroupedChunkRefs) :
  (forall f, f ∈ map Fingerprint (mergeSeries input buf).1 <->
             exists inp e, inp ∈ input /\ e ∈ inp /\ Fingerprint e = f) /\
  (length (mergeSeries input buf).1 <= length (concat input))%nat.
Proof.
  split.
  - intros f. split.
    + intros (o & -> & Ho)%list_elem_of_fmap.
      revert Ho. rewrite mergeSeries_unfold. cbn [fst].
      pose proof (merged_stream_elem_of input) as Hel.
      destruct (merged_stream input) as [|first rest]; simpl;
        [by intros ?%elem_of_nil|].
      intros Ho. apply dedupe_from in Ho as [(e & He & Hfp & _) _].
      apply Hel in He as (inp & Hinp & He). eauto.
    + intros (inp & e & Hinp & He & <-).
      destruct (mergeSeries_covers input buf inp e Hinp He) as (o & Ho & Hfp & _).
      apply list_elem_of_fmap. eauto.
  - apply mergeSeries_length.
Qed.

(** **** X6: the references of an output entry, for any input

    Whatever the input, sorted or not, the references of an entry of the
    output are exactly the references of the input entries of its
    fingerprint, and its tenant is the tenant of one of them. *)
Theorem mergeSeries_refs_exact
    (input : list (list GroupedChunkRefs)) (buf : list GroupedChunkRefs)
    (o : GroupedChunkRefs) :
  o ∈ (mergeSeries input buf).1 ->
  (forall r, r ∈ Refs o <->
     exists inp e, inp ∈ input /\ e ∈ inp /\
                   Fingerprint e = Fingerprint o /\ r ∈ Refs e) /\
  (exists inp e, inp ∈ input /\ e ∈ inp /\
                 Fingerprint e = Fingerprint o /\ Tenant e = Tenant o).
Proof.
  intros Ho.
  assert ((exists e, e ∈ merged_stream input /\ Fingerprint e = Fingerprint o /\
                     Tenant e = Tenant o) /\
          (forall r, r ∈ Refs o ->
             exists e, e ∈ merged_stream input /\ Fingerprint e = Fingerprint o /\
                       r ∈ Refs e)) as [Hten Hfrom].
  { revert Ho. rewrite mergeSeries_unfold. cbn [fst].
    destruct (merged_stream input) as [|first rest]; simpl;
      [by intros ?%elem_of_nil|].
    apply dedupe_from. }
  split; [split|].
  - intros Hr. destruct (Hfrom r Hr) as (e & He & Hfp & Hre).
    apply merged_stream_elem_of in He as (inp & Hinp & He). eauto 6.
  - intros (inp & e & Hinp & He & Hfp & Hr).
    destruct (mergeSeries_covers input buf inp e Hinp He) as (o' & Ho' & Hfp' & Hsub).
    assert (o' = o) as ->; [|by apply Hsub].
    apply (fp_strict_unique _ _ _ (mergeSeries_strict input buf) Ho' Ho). congruence.
  - destruct Hten as (e & He & Hfp & Ht).
    apply merged_stream_elem_of in He as (inp & Hinp & He). eauto 6.
Qed.

(** **** X7: an entry that is alone with its fingerprint passes through

    An input entry whose fingerprint no other input entry has is in the
    output as it was given: same tenant, same references in the same
    order, sorted or not. *)
Theorem mergeSeries_pass_through
    (input : list (list GroupedChunkRefs)) (buf : list GroupedChunkRefs)
    (inp : list GroupedChunkRefs) (e : GroupedChunkRefs) :
  inp ∈ input -> e ∈ inp ->
  length (filter (fun e' => Fingerprint e' = Fingerprint e) (concat input)) = 1%nat ->
  e ∈ (mergeSeries input buf).1.
Proof.
  intros Hinp He Hone. rewrite mergeSeries_unfold. cbn [fst].
  assert (e ∈ merged_stream input) as Hin by (apply merged_stream_elem_of; eauto).
  assert (length (filter (fun e' => Fingerprint e' = Fingerprint e)
                         (merged_stream input)) = 1%nat) as Hone'.
  { rewrite <- Hone. apply Permutation_length.
    by rewrite merged_stream_perm. }
  destruct (merged_stream input) as [|first rest]; simpl;
    [by apply elem_of_nil in Hin|].
  by apply dedupe_alone.
Qed.

(** **** X8: a merged entry has sorted references

    Whatever the input, an entry of the output is either one of the
    input entries or has its references sorted ascending: the sides of a
    merge are sorted first when they are not sorted yet. *)
Theorem mergeSeries_merged_sorted
    (input : list (list GroupedChunkRefs)) (buf : list GroupedChunkRefs)
    (o : GroupedChunkRefs) :
  o ∈ (mergeSeries input buf).1 ->
  (exists inp, inp ∈ input /\ o ∈ inp) \/ Sorted ref_le (Refs o).
Proof.
  rewrite mergeSeries_unfold. cbn [fst].
  pose proof (merged_stream_elem_of input) as Hel.
  destruct (merged_stream input) as [|first rest] eqn:Hst; simpl;
    [by intros ?%elem_of_nil|].
  intros Ho.
  assert (Forall (fun e => e ∈ first :: rest \/ Sorted ref_le (Refs e))
                 (dedupe (v1_Identity first) rest)) as HQ.
  { apply dedupe_Forall.
    - intros a b _ _. right. apply mergeSeries_merge_Refs_sorted.
    - left. by left.
    - apply Forall_forall. intros e He. left. by right. }
  rewrite Forall_forall in HQ. destruct (HQ o Ho) as [Hin|Hs]; [|by right].
  left. by apply Hel.
Qed.

(** **** X9: a list that is strictly ascending already is returned as it is

    For a single list without repeated fingerprint, sorted ascending,
    [mergeSeries] returns the list itself, whatever the references of
    its entries; in particular the output of [mergeSeries] is left
    unchanged by another [mergeSeries]. *)
Theorem mergeSeries_single_strict
    (L : list GroupedChunkRefs) (buf : list GroupedChunkRefs) :
  Sorted fp_le L -> NoDup (map Fingerprint L) ->
  mergeSeries [L] buf = (L, None).
Proof.
  intros Hs Hn. pose proof (fp_sorted_NoDup_strict L Hs Hn) as Hstrict.
  rewrite mergeSeries_unfold. f_equal.
  assert (sort_Slice fp_less L = L) as Hsort.
  { apply sort_Slice_sorted_id.
    eapply Sorted_weaken; [|exact Hs].
    intros a b Hab. unfold fp_le in Hab. unfold fp_less. apply Z.ltb_ge. lia. }
  simpl. rewrite Hsort. unfold v1_NewHeapIterator.
  rewrite heap_drain_single by (simpl; rewrite length_app; simpl; lia).
  destruct L as [|x t]; [done|]. by apply dedupe_strict.
Qed.

(** *** Further properties of the partitioning loop *)

Lemma FilterChunks_partition_trace c blks st s st' s' :
  FilterChunks_partition c blks st s = (Ok st', s') ->
  s' = mkCallState (results s) (count s)
         (trace s ++ map EvAddr (map block blks)).
Proof.
  revert st s. induction blks as [|bws rest IH]; intros st s Hrun.
  - injection Hrun as _ <-. destruct s. cbn. by rewrite app_nil_r.
  - cbn [FilterChunks_partition] in Hrun. rewrite bind_unfold in Hrun.
    cbn [emit fst snd] in Hrun.
    destruct (Addr (pool c) (block bws)) as [address|err]; [|done].
    apply IH in Hrun as ->. cbn [results count trace map].
    by rewrite <- app_assoc.
Qed.

Lemma concat_map_alter {X Y : Type} (g : X -> list Y) (f : X -> X)
    (extra : list Y) (l : list X) (i : nat) (x : X) :
  l !! i = Some x -> (forall y, g (f y) = g y ++ extra) ->
  concat (map g (alter f i l)) ≡ₚ concat (map g l) ++ extra.
Proof.
  intros Hl Hg. revert i Hl. induction l as [|y t IH]; intros [|i] Hl; try done.
  - cbn. rewrite Hg, <- !app_assoc. f_equiv. apply Permutation_app_comm.
  - cbn. cbn in Hl. change (list_alter f i t) with (alter f i t).
    by rewrite (IH i Hl), app_assoc.
Qed.

Lemma FilterChunks_place_perm st address bws :
  partition_inv st ->
  concat (map blocks (servers (FilterChunks_place st address bws))) ≡ₚ
    concat (map blocks (servers st)) ++ [block bws] /\
  concat (map groups (servers (FilterChunks_place st address bws))) ≡ₚ
    concat (map groups (servers st)) ++ series bws.
Proof.
  intros [H1 _]. unfold FilterChunks_place.
  destruct (pos st !! address) as [idx|] eqn:Hp; cbn [servers].
  - destruct (H1 _ _ Hp) as (srv & Hs & _).
    split; by eapply concat_map_alter.
  - rewrite !map_app, !concat_app. cbn. by rewrite !app_nil_r.
Qed.

(** Every block a server holds has been given the address of the server
    by the router. *)
Definition routed_here (c : GatewayClient) (st : partState) : Prop :=
  forall rs b, rs ∈ servers st -> b ∈ blocks rs ->
               Addr (pool c) b = Ok (addr rs).

Lemma FilterChunks_place_routed c st address bws :
  partition_inv st -> Addr (pool c) (block bws) = Ok address ->
  routed_here c st -> routed_here c (FilterChunks_place st address bws).
Proof.
  intros [H1 _] HA Hr rs b. unfold FilterChunks_place.
  destruct (pos st !! address) as [idx|] eqn:Hp; cbn [servers].
  - destruct (H1 _ _ Hp) as (srv & Hs & Ha).
    intros [i Hi]%list_elem_of_lookup_1.
    destruct (decide (idx = i)) as [->|Hne].
    + rewrite list_lookup_alter_eq, Hs in Hi. injection Hi as <-.
      cbn [blocks addr]. intros [Hb| ->%list_elem_of_singleton]%elem_of_app.
      * apply Hr; [by eapply list_elem_of_lookup_2|done].
      * by rewrite Ha.
    + rewrite list_lookup_alter_ne in Hi by done.
      apply Hr. by eapply list_elem_of_lookup_2.
  - intros [Hrs| ->%list_elem_of_singleton]%elem_of_app; [by apply Hr|].
    cbn [blocks addr]. by intros ->%list_elem_of_singleton.
Qed.

Lemma FilterChunks_partition_perm c blks st s st' s' :
  FilterChunks_partition c blks st s = (Ok st', s') ->
  partition_inv st ->
  concat (map blocks (servers st')) ≡ₚ
    concat (map blocks (servers st)) ++ map block blks /\
  concat (map groups (servers st')) ≡ₚ
    concat (map groups (servers st)) ++ concat (map series blks) /\
  (routed_here c st -> routed_here c st').
Proof.
  revert st s. induction blks as [|bws rest IH]; intros st s Hrun Hinv.
  - injection Hrun as <- _. cbn. by rewrite !app_nil_r.
  - cbn [FilterChunks_partition] in Hrun. rewrite bind_unfold in Hrun.
    cbn [emit fst snd] in Hrun.
    destruct (Addr (pool c) (block bws)) as [address|err] eqn:HA; [|done].
    destruct (IH _ _ Hrun (FilterChunks_place_inv st address bws Hinv))
      as (Hb & Hg & Hr).
    destruct (FilterChunks_place_perm st address bws Hinv) as [Hb1 Hg1].
    split; [|split].
    + rewrite Hb, Hb1. cbn. by rewrite <- app_assoc.
    + rewrite Hg, Hg1. cbn. by rewrite <- !app_assoc.
    + intros Hr0. by apply Hr, FilterChunks_place_routed.
Qed.

Lemma partition_inv_NoDup st : partition_inv st -> NoDup (map addr (servers st)).
Proof.
  intros [_ H2]. apply NoDup_alt. intros i j a Hi Hj.
  rewrite list_lookup_fmap in Hi, Hj.
  destruct (servers st !! i) as [si|] eqn:Hsi; [|done].
  destruct (servers st !! j) as [sj|] eqn:Hsj; [|done].
  cbn in Hi, Hj. injection Hi as Hi. injection Hj as Hj.
  apply H2 in Hsi, Hsj. congruence.
Qed.

(** **** X10: the partitioning loses and repeats nothing

    When the router has an address for every block, the loop over the
    blocks ends with one server per address: the addresses of the servers
    are pairwise distinct, the blocks of all servers together are the
    blocks of the call and their groups are the series of the call, each
    as often as it was given, and a server only holds blocks the router
    gave its address to. *)
Theorem FilterChunks_partition_exact
    (c : GatewayClient) (blks : list blockWithSeries)
    (s s1 : callState) (st : partState) :
  FilterChunks_partition c blks (mkPartState math_MaxUint64 0 ∅ []) s =
    (Ok st, s1) ->
  NoDup (map addr (servers st)) /\
  concat (map blocks (servers st)) ≡ₚ map block blks /\
  concat (map groups (servers st)) ≡ₚ concat (map series blks) /\
  (forall rs b, rs ∈ servers st -> b ∈ blocks rs ->
                Addr (pool c) b = Ok (addr rs)).
Proof.
  intros Hpart.
  pose proof (partition_inv_init math_MaxUint64 0) as Hinit.
  destruct (FilterChunks_partition_inv _ _ _ _ _ _ Hpart Hinit) as (Hinv & _ & _).
  destruct (FilterChunks_partition_perm _ _ _ _ _ _ Hpart Hinit) as (Hb & Hg & Hr).
  split; [by apply partition_inv_NoDup|]. split; [done|]. split; [done|].
  apply Hr. by intros rs b ?%elem_of_nil.
Qed.

(** *** Further properties of the fan-out *)

Lemma FilterChunks_job_run c interval plan srvs i rs cl s :
  srvs !! i = Some rs ->
  GetClientFor (pool c) (addr rs) = Ok cl ->
  FilterChunks_job c interval plan srvs i s =
    (None,
     mkCallState (<[i := shard_result interval plan rs cl]> (results s))
       (count s + Z.of_nat (length (shard_result interval plan rs cl)))
       (trace s ++ shard_events c interval plan rs)).
Proof.
  intros Hrs Hcl. unfold FilterChunks_job, doForAddrs, shard_events. rewrite Hrs.
  cbn [doForAddrs_loop]. rewrite bind_unfold. cbn [emit fst snd].
  rewrite Hcl. rewrite !bind_unfold. cbn [emit fst snd].
  unfold shard_result.
  destruct (FilterChunkRefs cl (FilterChunks_request interval rs plan));
    rewrite !bind_unfold; cbn; by rewrite <- !app_assoc.
Qed.

Lemma runJobs_run c interval plan srvs :
  (forall rs, rs ∈ srvs -> exists cl, GetClientFor (pool c) (addr rs) = Ok cl) ->
  forall m k s,
    (k + m <= length srvs)%nat ->
    exists s',
      runJobs (FilterChunks_job c interval plan srvs) (seq k m) s = (None, s') /\
      count s' = count s +
        Z.of_nat (length (concat (map (shard_slot c interval plan)
                                     (take m (drop k srvs))))) /\
      trace s' = trace s ++
        concat (map (shard_events c interval plan) (take m (drop k srvs))).
Proof.
  intros Hclients. induction m as [|m IH]; intros k s Hk.
  - exists s. rewrite take_0. cbn [seq runJobs map concat length].
    split; [done|]. split; [lia|by rewrite app_nil_r].
  - cbn [seq runJobs]. rewrite bind_unfold.
    destruct (lookup_lt_is_Some_2 srvs k) as [rs Hrs]; [lia|].
    destruct (Hclients rs) as [cl Hcl]; [by eapply list_elem_of_lookup_2|].
    rewrite (FilterChunks_job_run c interval plan srvs k rs cl s Hrs Hcl).
    cbn [fst snd].
    match goal with
    | |- context [runJobs _ _ ?s0] => destruct (IH (S k) s0) as (s' & Hrun & Hc & Ht)
    end; [lia|].
    exists s'. split; [done|].
    rewrite (drop_S _ _ _ Hrs). cbn [take map concat].
    cbn [count trace] in Hc, Ht. rewrite Hc, Ht.
    unfold shard_slot at 2. rewrite Hcl. split.
    + rewrite length_app. lia.
    + by rewrite <- app_assoc.
Qed.

Lemma outbound_requests_shards c interval plan srvs :
  (forall rs, rs ∈ srvs -> exists cl, GetClientFor (pool c) (addr rs) = Ok cl) ->
  outbound_requests (concat (map (shard_events c interval plan) srvs)) =
    map (fun rs => FilterChunks_request interval rs plan) srvs.
Proof.
  induction srvs as [|rs rest IH]; intros Hclients; [done|].
  cbn [map concat]. rewrite outbound_requests_app, IH.
  - destruct (Hclients rs) as [cl Hcl]; [by left|].
    unfold shard_events. rewrite Hcl.
    by destruct (FilterChunkRefs cl (FilterChunks_request interval rs plan)).
  - intros rs' Hrs'. apply Hclients. by right.
Qed.

Lemma clientRequests_app label tr1 tr2 :
  clientRequests label (tr1 ++ tr2) =
    (clientRequests label tr1 + clientRequests label tr2)%nat.
Proof. unfold clientRequests. by rewrite filter_app, length_app. Qed.

Lemma clientRequests_EvAddr label (keys : list string) :
  clientRequests label (map EvAddr keys) = 0%nat.
Proof. by induction keys. Qed.

Lemma clientRequests_shards c interval plan srvs :
  (forall rs, rs ∈ srvs -> exists cl, GetClientFor (pool c) (addr rs) = Ok cl) ->
  clientRequests typeError (concat (map (shard_events c interval plan) srvs)) =
    length (filter (fun rs => shard_failed c interval plan rs = true) srvs) /\
  (clientRequests typeSuccess (concat (map (shard_events c interval plan) srvs)) +
   clientRequests typeError (concat (map (shard_events c interval plan) srvs)) =
   length srvs)%nat.
Proof.
  induction srvs as [|rs rest IH]; intros Hclients; [done|].
  destruct IH as [IH1 IH2]; [intros rs' Hrs'; apply Hclients; by right|].
  cbn [map concat]. rewrite !clientRequests_app, IH1.
  destruct (Hclients rs) as [cl Hcl]; [by left|].
  assert (shard_failed c interval plan rs = true /\
          clientRequests typeError (shard_events c interval plan rs) = 1%nat /\
          clientRequests typeSuccess (shard_events c interval plan rs) = 0%nat \/
          shard_failed c interval plan rs = false /\
          clientRequests typeError (shard_events c interval plan rs) = 0%nat /\
          clientRequests typeSuccess (shard_events c interval plan rs) = 1%nat)
    as [(Hf & He & Hs)|(Hf & He & Hs)].
  { unfold shard_failed, shard_events. rewrite Hcl.
    destruct (FilterChunkRefs cl (FilterChunks_request interval rs plan));
      [right|left]; done. }
  - rewrite filter_cons_True by done. rewrite IH1 in IH2.
    rewrite He, Hs. cbn [length]. lia.
  - rewrite filter_cons_False by congruence. rewrite IH1 in IH2.
    rewrite He, Hs. cbn [length]. lia.
Qed.

(** The whole of a call in which every block is placed and every shard
    gets a client, the context being live. *)
Lemma FilterChunks_run_full c ctx tenant interval blks plan s st s1 :
  blks <> [] ->
  ctx_Err ctx = None ->
  FilterChunks_partition c blks (mkPartState math_MaxUint64 0 ∅ []) s =
    (Ok st, s1) ->
  (forall rs, rs ∈ servers st ->
              exists cl, GetClientFor (pool c) (addr rs) = Ok cl) ->
  exists s',
    FilterChunks c ctx tenant interval blks plan s =
      ((Some (mergeSeries (results s') []).1, None), s') /\
    results s' = map (shard_slot c interval plan) (servers st) /\
    count s' = Z.of_nat (length (concat (results s'))) /\
    trace s' = trace s ++ map EvAddr (map block blks) ++
               concat (map (shard_events c interval plan) (servers st)).
Proof.
  intros Hne Hctx Hpart Hclients.
  pose proof (FilterChunks_partition_trace _ _ _ _ _ _ Hpart) as Hs1.
  unfold FilterChunks. destruct blks as [|b0 rest]; [done|].
  cbn [length Nat.eqb]. rewrite bind_unfold, Hpart. cbn [fst snd].
  rewrite !bind_unfold. cbn [set_results set_count fst snd results count trace].
  unfold concurrency_ForEachJob. rewrite Hctx.
  set (n := length (servers st)).
  set (s2 := mkCallState (replicate n []) 0 (trace s1)).
  assert (exists s',
            (if (n =? 0)%nat then ret None
             else runJobs (FilterChunks_job c interval plan (servers st))
                    (seq 0 n)) s2 = (None, s') /\
            results s' = map (shard_slot c interval plan) (servers st) /\
            count s' = Z.of_nat (length (concat (results s'))) /\
            trace s' = trace s1 ++
              concat (map (shard_events c interval plan) (servers st)))
    as (s' & -> & Hres & Hcount & Htrace).
  { destruct (Nat.eqb_spec n 0) as [Hz|Hnz].
    - exists s2. apply nil_length_inv in Hz. rewrite Hz. subst s2 n. rewrite Hz.
      cbn. by rewrite app_nil_r.
    - destruct (runJobs_ok c interval plan (servers st) Hclients n 0%nat s2)
        as (s' & Hrun & Hlen & Hin & _).
      { subst n. lia. }
      { subst s2 n. cbn [results]. by rewrite length_replicate. }
      destruct (runJobs_run c interval plan (servers st) Hclients n 0%nat s2)
        as (s'' & Hrun' & Hc & Ht); [subst n; lia|].
      assert (s'' = s') as -> by congruence.
      assert (results s' = map (shard_slot c interval plan) (servers st)) as Hres.
      { apply list_eq. intros i. rewrite list_lookup_fmap.
        destruct (servers st !! i) as [rs|] eqn:Hrs; cbn.
        - destruct (Hclients rs) as [cl Hcl]; [by eapply list_elem_of_lookup_2|].
          rewrite (Hin i rs cl); [|apply lookup_lt_Some in Hrs; subst n; lia|done..].
          unfold shard_slot. by rewrite Hcl.
        - apply lookup_ge_None. apply lookup_ge_None in Hrs. lia. }
      exists s'. split; [done|]. split; [done|].
      rewrite drop_0, take_ge in Hc, Ht by (subst n; lia).
      subst s2. cbn [count trace] in Hc, Ht. rewrite Hc, Ht, Hres.
      split; [lia|done]. }
  cbn [fst snd get_results ret].
  exists s'. split; [reflexivity|]. split; [done|]. split; [done|].
  rewrite Htrace, Hs1. cbn [trace]. by rewrite <- app_assoc.
Qed.

(** **** X11: one filter request per shard

    In a call in which every block is placed and every shard gets a
    client, the context being live, the filter requests sent are those
    of the shards, one for each: a request names the blocks of its shard,
    the bounds of the interval and the plan, and its groups are those of
    the shard sorted ascending by fingerprint. *)
Theorem FilterChunks_requests
    (c : GatewayClient) (ctx : Context) (tenant : string)
    (interval : Interval) (blks : list blockWithSeries) (plan : QueryPlan)
    (s s1 : callState) (st : partState) :
  blks <> [] ->
  ctx_Err ctx = None ->
  FilterChunks_partition c blks (mkPartState math_MaxUint64 0 ∅ []) s =
    (Ok st, s1) ->
  (forall rs, rs ∈ servers st ->
              exists cl, GetClientFor (pool c) (addr rs) = Ok cl) ->
  exists reqs,
    outbound_requests (trace (FilterChunks c ctx tenant interval blks plan s).2) ≡ₚ
      outbound_requests (trace s) ++ reqs /\
    Forall2 (fun rs req =>
               From req = Start interval /\ Through req = End_ interval /\
               Plan req = plan /\ Blocks req = blocks rs /\
               ReqRefs req ≡ₚ groups rs /\ StronglySorted fp_le (ReqRefs req))
            (servers st) reqs.
Proof.
  intros Hne Hctx Hpart Hclients.
  destruct (FilterChunks_run_full c ctx tenant interval blks plan s st s1
              Hne Hctx Hpart Hclients) as (s' & -> & _ & _ & Htrace).
  exists (map (fun rs => FilterChunks_request interval rs plan) (servers st)).
  split.
  - cbn [snd]. rewrite Htrace, !outbound_requests_app, outbound_requests_EvAddr.
    by rewrite outbound_requests_shards.
  - apply Forall2_fmap_r, Forall_Forall2_diag, Forall_forall. intros rs _.
    cbn. repeat split; [apply sort_Slice_perm|].
    apply (sort_Slice_key_sorted fp_less Fingerprint fp_less_key).
Qed.

(** **** X12: one outcome counted per shard

    In such a call the [clientRequests] counter is incremented once for
    every shard: with the error label for the shards whose filter request
    fails, with the success label for the others. *)
Theorem FilterChunks_outcomes
    (c : GatewayClient) (ctx : Context) (tenant : string)
    (interval : Interval) (blks : list blockWithSeries) (plan : QueryPlan)
    (s s1 : callState) (st : partState) :
  blks <> [] ->
  ctx_Err ctx = None ->
  FilterChunks_partition c blks (mkPartState math_MaxUint64 0 ∅ []) s =
    (Ok st, s1) ->
  (forall rs, rs ∈ servers st ->
              exists cl, GetClientFor (pool c) (addr rs) = Ok cl) ->
  let tr := trace (FilterChunks c ctx tenant interval blks plan s).2 in
  clientRequests typeError tr =
    (clientRequests typeError (trace s) +
     length (filter (fun rs => shard_failed c interval plan rs = true)
                    (servers st)))%nat /\
  (clientRequests typeSuccess tr + clientRequests typeError tr =
   clientRequests typeSuccess (trace s) + clientRequests typeError (trace s) +
   length (servers st))%nat.
Proof.
  intros Hne Hctx Hpart Hclients.
  destruct (FilterChunks_run_full c ctx tenant interval blks plan s st s1
              Hne Hctx Hpart Hclients) as (s' & -> & _ & _ & Htrace).
  cbn [snd]. rewrite Htrace, !clientRequests_app, !clientRequests_EvAddr.
  destruct (clientRequests_shards c interval plan (servers st) Hclients) as [H1 H2].
  rewrite H1. split; lia.
Qed.

(** **** X13: the buffer given to the merge is large enough

    In such a call [count] ends as the number of groups in all slots of
    [results], and the merged output has no more entries than that: the
    buffer made with that capacity never has to grow. *)
Theorem FilterChunks_count
    (c : GatewayClient) (ctx : Context) (tenant : string)
    (interval : Interval) (blks : list blockWithSeries) (plan : QueryPlan)
    (s s1 : callState) (st : partState) :
  blks <> [] ->
  ctx_Err ctx = None ->
  FilterChunks_partition c blks (mkPartState math_MaxUint64 0 ∅ []) s =
    (Ok st, s1) ->
  (forall rs, rs ∈ servers st ->
              exists cl, GetClientFor (pool c) (addr rs) = Ok cl) ->
  exists out s',
    FilterChunks c ctx tenant interval blks plan s = ((Some out, None), s') /\
    count s' = Z.of_nat (length (concat (results s'))) /\
    Z.of_nat (length out) <= count s'.
Proof.
  intros Hne Hctx Hpart Hclients.
  destruct (FilterChunks_run_full c ctx tenant interval blks plan s st s1
              Hne Hctx Hpart Hclients) as (s' & Hrun & _ & Hcount & _).
  eexists _, s'. split; [exact Hrun|]. split; [done|].
  rewrite Hcount. apply inj_le.
  apply mergeSeries_length.
Qed.

(** *** Further properties of [FilterChunks] *)

(** The three ways a call ends. *)
Lemma FilterChunks_cases c ctx tenant interval blks plan s r s' :
  FilterChunks c ctx tenant interval blks plan s = (r, s') ->
  (blks = [] /\ r = (None, None)) \/
  (blks <> [] /\ exists e, r = (None, Some e)) \/
  (blks <> [] /\ exists res, r = (Some (mergeSeries res []).1, None)).
Proof.
  unfold FilterChunks. destruct blks as [|b0 rest].
  - intros [= <- _]. by left.
  - cbn [length Nat.eqb]. rewrite bind_unfold.
    destruct (FilterChunks_partition c (b0 :: rest)
                (mkPartState math_MaxUint64 0 ∅ []) s) as [[st|e0] s1];
      cbn [fst snd].
    + rewrite !bind_unfold. cbn [set_results set_count fst snd].
      match goal with
      | |- context [concurrency_ForEachJob ?a ?b ?d ?j ?s0] =>
          destruct (concurrency_ForEachJob a b d j s0) as [[e1|] s2]
      end; cbn [fst snd].
      * intros [= <- _]. right. left. split; [done|]. by eexists.
      * rewrite bind_unfold. cbn. intros [= <- _]. right. right.
        split; [done|]. by eexists.
    + intros [= <- _]. right. left. split; [done|]. by eexists.
Qed.

(** **** X14: a result of [FilterChunks] is always merged

    Whenever [FilterChunks] returns a slice, whatever the gateways have
    answered, the error is nil and the slice is sorted strictly ascending
    by fingerprint, without repeated fingerprint. *)
Theorem FilterChunks_result_sorted
    (c : GatewayClient) (ctx : Context) (tenant : string)
    (interval : Interval) (blks : list blockWithSeries) (plan : QueryPlan)
    (s s' : callState) (out : list GroupedChunkRefs) (err : option error) :
  FilterChunks c ctx tenant interval blks plan s = ((Some out, err), s') ->
  err = None /\ StronglySorted fp_lt out /\ NoDup (map Fingerprint out).
Proof.
  intros [[_ [=]]|[[_ [e [=]]]|[_ [res [= -> ->]]]]]%FilterChunks_cases.
  split; [done|].
  split; [apply (mergeSeries_strict res [])|].
  apply fp_lt_NoDup, (mergeSeries_strict res []).
Qed.

(** **** X15: no slice with an error, no nil without a reason

    The slice [FilterChunks] returns is nil exactly when there is no
    block or the call fails: an error never comes with a slice, and a
    call with blocks that ends well returns a slice, be it empty. *)
Theorem FilterChunks_nil_iff
    (c : GatewayClient) (ctx : Context) (tenant : string)
    (interval : Interval) (blks : list blockWithSeries) (plan : QueryPlan)
    (s s' : callState) (out : option (list GroupedChunkRefs))
    (err : option error) :
  FilterChunks c ctx tenant interval blks plan s = ((out, err), s') ->
  (out = None <-> blks = [] \/ err <> None) /\
  (blks = [] -> err = None).
Proof.
  intros [[-> [= -> ->]]|[[Hne [e [= -> ->]]]|[Hne [res [= -> ->]]]]]%FilterChunks_cases.
  - split; [|done]. split; [by left|done].
  - split; [|done]. split; [by right|done].
  - split; [|done]. split; [done|]. by intros [?|?].
Qed.

(** **** X20: a failed request leaves the shard unfiltered

    Let the router place every block and every shard get a client, the
    context being live.  Then [FilterChunks] returns no error, whatever
    the gateways answer; every series of every block is among the groups
    of the shard of its address; and for every shard whose filter request
    fails, the slot of the shard holds the groups of the shard, all of
    them and sorted ascending by fingerprint, and every such group has an
    entry of its fingerprint in the output that holds all of its
    references.  With two shards, the first answering [{5, [c1]}] and the
    second failing on [{20, [c4; c5]}], the output is
    [{5, [c1]}; {20, [c4; c5]}]. *)
Theorem FilterChunks_fail_open :
  (forall (c : GatewayClient) (ctx : Context) (tenant : string)
          (interval : Interval) (blks : list blockWithSeries)
          (plan : QueryPlan) (s s1 : callState) (st : partState),
     blks <> [] ->
     ctx_Err ctx = None ->
     FilterChunks_partition c blks (mkPartState math_MaxUint64 0 ∅ []) s =
       (Ok st, s1) ->
     (forall rs, rs ∈ servers st ->
                 exists cl, GetClientFor (pool c) (addr rs) = Ok cl) ->
     exists out s',
       FilterChunks c ctx tenant interval blks plan s = ((Some out, None), s') /\
       (forall b g, b ∈ blks -> g ∈ series b ->
          exists rs, rs ∈ servers st /\
                     Addr (pool c) (block b) = Ok (addr rs) /\ g ∈ groups rs) /\
       forall i rs cl e,
         servers st !! i = Some rs ->
         GetClientFor (pool c) (addr rs) = Ok cl ->
         FilterChunkRefs cl (FilterChunks_request interval rs plan) = Err e ->
         (exists slot, results s' !! i = Some slot /\
                       slot ≡ₚ groups rs /\ StronglySorted fp_le slot) /\
         forall g, g ∈ groups rs ->
           exists o, o ∈ out /\ Fingerprint o = Fingerprint g /\
                     forall r, r ∈ Refs g -> r ∈ Refs o) /\
  (forall (c1 c4 c5 : ShortRef) (t5 t20 : string)
          (series1 : list GroupedChunkRefs) (e : error)
          (tenant : string) (interval : Interval) (plan : QueryPlan)
          (s : callState),
     let gw1 := mkClient (fun _ => Ok (mkResponse [mkGroup 5 t5 [c1]])) in
     let gw2 := mkClient (fun _ => Err e) in
     let c :=
       mkGatewayClient
         (mkPool
            (fun key => if String.eqb key "block1" then Ok "addr1" else Ok "addr2")
            (fun a => if String.eqb a "addr1" then Ok gw1 else Ok gw2)) in
     (FilterChunks c (mkContext None) tenant interval
        [mkBlockWithSeries "block1" series1;
         mkBlockWithSeries "block2" [mkGroup 20 t20 [c4; c5]]] plan s).1 =
       (Some [mkGroup 5 t5 [c1]; mkGroup 20 t20 [c4; c5]], None)).
Proof.
  split.
  - intros c ctx tenant interval blks plan s s1 st Hne Hctx Hpart Hclients.
    destruct (FilterChunks_run_ok c ctx tenant interval blks plan s st s1
                Hne Hctx Hpart Hclients) as (s' & Hrun & Hslots).
    exists (mergeSeries (results s') []).1, s'. split; [exact Hrun|]. split.
    + intros b g Hb Hg.
      destruct (FilterChunks_partition_inv _ _ _ _ _ _ Hpart
                  (partition_inv_init _ _)) as (_ & _ & Hblks).
      destruct (Hblks b Hb) as (rs & Ha & Hrs & _ & Hgs). eauto.
    + intros i rs cl e Hrs Hcl Hrpc.
      pose proof (Hslots i rs cl Hrs Hcl) as Hslot.
      unfold shard_result in Hslot. rewrite Hrpc in Hslot.
      split.
      * exists (sort_Slice fp_less (groups rs)). split; [done|].
        split; [apply sort_Slice_perm|].
        apply (sort_Slice_key_sorted fp_less Fingerprint fp_less_key).
      * intros g Hg.
        apply (mergeSeries_covers (results s') []
                 (sort_Slice fp_less (groups rs)) g).
        -- by eapply list_elem_of_lookup_2.
        -- by rewrite sort_Slice_perm.
  - intros c1 c4 c5 t5 t20 series1 e tenant interval plan s gw1 gw2 c.
    subst gw1 gw2 c. vm_compute. reflexivity.
Qed.

(** *** Further properties of [doForAddrs] *)

Lemma doForAddrs_loop_nil_err c fn err s :
  doForAddrs_loop c [] fn err s = (err, s).
Proof. reflexivity. Qed.

(** In a loop over at least one candidate the error before the loop does
    not matter. *)
Lemma doForAddrs_loop_err c addrs fn err err' s :
  addrs <> [] ->
  doForAddrs_loop c addrs fn err s = doForAddrs_loop c addrs fn err' s.
Proof. by destruct addrs. Qed.

Lemma doForAddrs_loop_app c l1 l2 fn err s :
  l1 <> [] ->
  doForAddrs_loop c (l1 ++ l2) fn err s =
    match doForAddrs_loop c l1 fn err s with
    | (None, s1) => (None, s1)
    | (Some e, s1) => doForAddrs_loop c l2 fn (Some e) s1
    end.
Proof.
  revert err s. induction l1 as [|a rest IH]; intros err s Hne; [done|].
  cbn [app doForAddrs_loop]. rewrite !bind_unfold. cbn [emit fst snd].
  destruct (GetClientFor (pool c) a) as [cl|e].
  - rewrite !bind_unfold.
    destruct (fn cl _) as [[e1|] s1]; cbn [fst snd]; [|done].
    rewrite !bind_unfold. cbn [emit fst snd].
    destruct rest as [|b rest']; [done|]. by apply IH.
  - rewrite !bind_unfold. cbn [emit fst snd].
    destruct rest as [|b rest']; [done|]. by apply IH.
Qed.

(** **** X16: candidates without a client

    When the pool has a client for none of the candidates, [doForAddrs]
    returns the error of the last candidate, nil when there is none; the
    callback does not run, and all that happens is one attempt and one
    log line per candidate, in order. *)
Theorem doForAddrs_no_client
    (c : GatewayClient) (addrs : list string) (errs : list error)
    (fn : BloomGatewayClient -> M (option error)) (s : callState) :
  Forall2 (fun a e => GetClientFor (pool c) a = Err e) addrs errs ->
  doForAddrs c addrs fn s =
    (last errs,
     mkCallState (results s) (count s)
       (trace s ++
        concat (map (fun a => [EvGetClientFor a;
                               EvLogError "failed to get client for instance" a])
                    addrs))).
Proof.
  unfold doForAddrs. intros Hall.
  assert (forall err,
    doForAddrs_loop c addrs fn err s =
      (match last errs with Some e => Some e | None => err end,
       mkCallState (results s) (count s)
         (trace s ++
          concat (map (fun a => [EvGetClientFor a;
                                 EvLogError "failed to get client for instance" a])
                      addrs)))) as Hloop.
  { revert s. induction Hall as [|a e addrs errs Ha Hall IH]; intros s err.
    - cbn. destruct s. cbn. by rewrite app_nil_r.
    - cbn [doForAddrs_loop]. rewrite !bind_unfold. cbn [emit fst snd].
      rewrite Ha. rewrite !bind_unfold. cbn [emit fst snd].
      rewrite IH. cbn [results count trace map concat].
      rewrite <- !app_assoc. cbn [app]. rewrite last_cons.
      by destruct (last errs). }
  rewrite Hloop. by destruct (last errs).
Qed.

(** **** X17: candidates are tried in order, up to the first success

    Once [doForAddrs] has succeeded on a list of candidates, candidates
    added behind them are never tried: result and effects are the same.
    And when it has failed on a list, candidates added behind it are
    tried from where the failed attempts have left things. *)
Theorem doForAddrs_app
    (c : GatewayClient) (l1 l2 : list string)
    (fn : BloomGatewayClient -> M (option error)) (s s1 : callState) :
  l1 <> [] ->
  (doForAddrs c l1 fn s = (None, s1) ->
   doForAddrs c (l1 ++ l2) fn s = (None, s1)) /\
  (forall e, l2 <> [] -> doForAddrs c l1 fn s = (Some e, s1) ->
   doForAddrs c (l1 ++ l2) fn s = doForAddrs c l2 fn s1).
Proof.
  intros Hne. unfold doForAddrs. rewrite doForAddrs_loop_app by done. split.
  - by intros ->.
  - intros e Hne2 ->. by apply doForAddrs_loop_err.
Qed.

End Client.

Arguments mkGroup {ShortRef} Fingerprint Tenant Refs.
Arguments Fingerprint {ShortRef} g.
Arguments Tenant {ShortRef} g.
Arguments Refs {ShortRef} g.
Arguments mkBlockWithSeries {ShortRef} block series.
Arguments mkResponse {ShortRef} ChunkRefs.
Arguments mkClient {ShortRef QueryPlan} FilterChunkRefs.
Arguments mkPool {ShortRef QueryPlan} Addr GetClientFor.
Arguments mkGatewayClient {ShortRef QueryPlan} pool.
Arguments mkCallState {ShortRef QueryPlan} results count trace.
Arguments results {ShortRef QueryPlan} c.
Arguments trace {ShortRef QueryPlan} c.
Arguments EvAddr {ShortRef QueryPlan} key.
Arguments mergeChunkSets {ShortRef} Equal Less s1 s2.
Arguments mergeSeries {ShortRef} Equal Less Cmp input buf.
Arguments FilterChunks {ShortRef} Equal Less Cmp {QueryPlan} getFirstLast c ctx _ interval blks plan.
Arguments RefsSortedNoDup {ShortRef} Less l.
Arguments fp_le {ShortRef} a b.
Arguments fp_lt {ShortRef} a b.
Arguments ref_lt {ShortRef} Less a b.

(** ** What does not matter to a call *)

Lemma FilterChunks_place_getFirstLast {ShortRef : Type}
    (gfl1 gfl2 : list (GroupedChunkRefs ShortRef) ->
                 GroupedChunkRefs ShortRef * GroupedChunkRefs ShortRef)
    (st1 st2 : partState ShortRef) (address : string)
    (bws : blockWithSeries ShortRef) :
  pos _ st1 = pos _ st2 -> servers _ st1 = servers _ st2 ->
  pos _ (FilterChunks_place _ gfl1 st1 address bws) =
    pos _ (FilterChunks_place _ gfl2 st2 address bws) /\
  servers _ (FilterChunks_place _ gfl1 st1 address bws) =
    servers _ (FilterChunks_place _ gfl2 st2 address bws).
Proof.
  intros Hp Hs. unfold FilterChunks_place. rewrite Hp, Hs.
  by destruct (pos _ st2 !! address).
Qed.

Lemma FilterChunks_partition_getFirstLast {ShortRef QueryPlan : Type}
    (gfl1 gfl2 : list (GroupedChunkRefs ShortRef) ->
                 GroupedChunkRefs ShortRef * GroupedChunkRefs ShortRef)
    (c : GatewayClient ShortRef QueryPlan)
    (blks : list (blockWithSeries ShortRef)) (st1 st2 : partState ShortRef)
    (s : callState ShortRef QueryPlan) :
  pos _ st1 = pos _ st2 -> servers _ st1 = servers _ st2 ->
  (FilterChunks_partition _ _ gfl1 c blks st1 s).2 =
    (FilterChunks_partition _ _ gfl2 c blks st2 s).2 /\
  match (FilterChunks_partition _ _ gfl1 c blks st1 s).1,
        (FilterChunks_partition _ _ gfl2 c blks st2 s).1 with
  | Ok a, Ok b => pos _ a = pos _ b /\ servers _ a = servers _ b
  | Err e1, Err e2 => e1 = e2
  | _, _ => False
  end.
Proof.
  revert st1 st2 s. induction blks as [|bws rest IH]; intros st1 st2 s Hp Hs.
  - by cbn.
  - cbn [FilterChunks_partition]. rewrite !bind_unfold.
    destruct (Addr _ _ (pool _ _ c) (block _ bws)) as [address|err]; [|by cbn].
    apply IH; by apply FilterChunks_place_getFirstLast.
Qed.

(** **** X18: the tracked fingerprint range changes nothing

    [FilterChunks] keeps the smallest first and the largest last
    fingerprint it has seen, as [getFirstLast] reports them, and never
    uses them: whatever [getFirstLast] answers, the result and every
    effect of the call are the same. *)
Theorem FilterChunks_getFirstLast_irrelevant {ShortRef QueryPlan : Type}
    (Equal Less : ShortRef -> ShortRef -> bool) (Cmp : ShortRef -> ShortRef -> Z)
    (gfl1 gfl2 : list (GroupedChunkRefs ShortRef) ->
                 GroupedChunkRefs ShortRef * GroupedChunkRefs ShortRef)
    (c : GatewayClient ShortRef QueryPlan) (ctx : Context) (tenant : string)
    (interval : Interval) (blks : list (blockWithSeries ShortRef))
    (plan : QueryPlan) (s : callState ShortRef QueryPlan) :
  FilterChunks Equal Less Cmp gfl1 c ctx tenant interval blks plan s =
  FilterChunks Equal Less Cmp gfl2 c ctx tenant interval blks plan s.
Proof.
  unfold FilterChunks. destruct blks as [|b0 rest]; [done|].
  cbn [length Nat.eqb]. rewrite !bind_unfold.
  pose proof (FilterChunks_partition_getFirstLast gfl1 gfl2 c (b0 :: rest)
                (mkPartState ShortRef math_MaxUint64 0 ∅ [])
                (mkPartState ShortRef math_MaxUint64 0 ∅ []) s eq_refl eq_refl)
    as [Hst Hres].
  destruct (FilterChunks_partition _ _ gfl1 c (b0 :: rest) _ s) as [[st1|e1] s1];
    destruct (FilterChunks_partition _ _ gfl2 c (b0 :: rest) _ s) as [[st2|e2] s2];
    cbn [fst snd] in *; subst; try done.
  destruct Hres as [_ ->]. done.
Qed.

(** **** X19: when a configuration is valid

    [Validate] returns nil exactly when the gRPC client configuration and
    the pool configuration are valid, the cache configuration is valid if
    results are to be cached, and the list of addresses is not empty.
    With caching off the cache configuration is not looked at. *)
Theorem Validate_nil_iff {PoolConfigT GRPCConfigT CacheConfigT : Type}
    (PoolConfig_Validate : PoolConfigT -> option error)
    (GRPCConfig_Validate : GRPCConfigT -> option error)
    (CacheConfig_Validate : CacheConfigT -> option error)
    (i : ClientConfig PoolConfigT GRPCConfigT CacheConfigT) :
  let valid := Validate PoolConfigT GRPCConfigT CacheConfigT
                 PoolConfig_Validate GRPCConfig_Validate CacheConfig_Validate in
  (valid i = None <->
     GRPCConfig_Validate (GRPCClientConfig _ _ _ i) = None /\
     PoolConfig_Validate (PoolConfig _ _ _ i) = None /\
     (CacheResults _ _ _ i = true ->
      CacheConfig_Validate (Cache _ _ _ i) = None) /\
     Addresses _ _ _ i <> "") /\
  (CacheResults _ _ _ i = false ->
   forall cache',
     valid (mkClientConfig _ _ _ (PoolConfig _ _ _ i) (GRPCClientConfig _ _ _ i)
              cache' false (Addresses _ _ _ i)) = valid i).
Proof.
  intros valid. subst valid. unfold Validate. destruct i as [p g ca cr ad]. cbn.
  split.
  - destruct (GRPCConfig_Validate g); [split; [done|by intros [? _]]|].
    destruct (PoolConfig_Validate p); [split; [done|by intros (_ & ? & _)]|].
    destruct cr.
    + destruct (CacheConfig_Validate ca);
        [split; [done|intros (_ & _ & H & _); by specialize (H eq_refl)]|].
      destruct (String.eqb_spec ad ""); [split; [done|by intros (_ & _ & _ & ?)]|].
      done.
    + destruct (String.eqb_spec ad ""); [split; [done|by intros (_ & _ & _ & ?)]|].
      done.
  - by intros ->.
Qed.

(** ** The statements at work on integer chunk references *)

Abbreviation zref_getFirstLast := (getFirstLast_or (mkGroup (ShortRef := Z) 0 "" [])).

Lemma zref_Equal_eq (a b : Z) : (a =? b) = true <-> a = b.
Proof. apply Z.eqb_eq. Qed.

Lemma zref_Less_irrefl (a : Z) : (a <? a) = false.
Proof. apply Z.ltb_irrefl. Qed.

Lemma zref_Less_trans (a b c : Z) :
  (a <? b) = true -> (b <? c) = true -> (a <? c) = true.
Proof. rewrite !Z.ltb_lt. lia. Qed.

Lemma zref_Less_total (a b : Z) : (a <? b) = true \/ a = b \/ (b <? a) = true.
Proof. rewrite !Z.ltb_lt. lia. Qed.

Lemma zref_Cmp_Less (a b : Z) : (zref_Cmp a b <? 0) = (a <? b).
Proof.
  unfold zref_Cmp, Z.ltb at 2. by destruct (a ?= b).
Qed.

Ltac refs_sorted :=
  split; [repeat constructor | compute_done].

Ltac fp_sorted :=
  repeat first [ constructor | (unfold fp_le; simpl; lia) ].

Lemma mergeChunkSets_union_witness :
  let A := [1; 2] in
  let B := [2; 3] in
  RefsSortedNoDup Z.ltb A /\
  RefsSortedNoDup Z.ltb B /\
  RefsSortedNoDup Z.ltb (mergeChunkSets Z.eqb Z.ltb A B) /\
  (Nat.max (length A) (length B) <= length (mergeChunkSets Z.eqb Z.ltb A B))%nat /\
  (length (mergeChunkSets Z.eqb Z.ltb A B) <= length A + length B)%nat /\
  (forall x, x ∈ mergeChunkSets Z.eqb Z.ltb A B <-> x ∈ A \/ x ∈ B).
Proof.
  intros A B.
  assert (RefsSortedNoDup Z.ltb A) as HA by (subst A; refs_sorted).
  assert (RefsSortedNoDup Z.ltb B) as HB by (subst B; refs_sorted).
  split; [exact HA|]. split; [exact HB|].
  exact (mergeChunkSets_union Z Z.eqb Z.ltb zref_Equal_eq zref_Less_irrefl
           zref_Less_trans zref_Less_total A B HA HB).
Defined.

Lemma mergeSeries_sorted_unique_witness :
  let input := [[mkGroup 1 "t" [1]; mkGroup 3 "t" [2]];
                [mkGroup 2 "t" [3]; mkGroup 3 "t" [4]]] in
  Forall (Sorted fp_le) input /\
  StronglySorted fp_lt (mergeSeries Z.eqb Z.ltb zref_Cmp input []).1 /\
  NoDup (map Fingerprint (mergeSeries Z.eqb Z.ltb zref_Cmp input []).1).
Proof.
  intros input.
  assert (Forall (Sorted fp_le) input) as Hin by (subst input; fp_sorted).
  split; [exact Hin|].
  exact (proj2 (mergeSeries_sorted_unique Z Z.eqb Z.ltb zref_Cmp input [] Hin)).
Defined.

Lemma mergeSeries_refs_union_witness :
  let e1 := mkGroup 10 "t1" [1; 2] in
  let e2 := mkGroup 10 "t2" [2; 3] in
  let input := [[e1]; [e2]] in
  (exists o,
     o ∈ (mergeSeries Z.eqb Z.ltb zref_Cmp input []).1 /\
     Fingerprint o = 10 /\
     RefsSortedNoDup Z.ltb (Refs o) /\
     (forall r, r ∈ Refs o <->
        exists inp' e', inp' ∈ input /\ e' ∈ inp' /\
                        Fingerprint e' = 10 /\ r ∈ Refs e')) /\
  (exists t, mergeSeries Z.eqb Z.ltb zref_Cmp input [] =
             ([mkGroup 10 t [1; 2; 3]], None)).
Proof.
  intros e1 e2 input.
  pose proof (mergeSeries_refs_union Z Z.eqb Z.ltb zref_Cmp zref_Equal_eq
                zref_Less_irrefl zref_Less_trans zref_Less_total zref_Cmp_Less)
    as [Hgen Hscen].
  split.
  - assert (Forall (Sorted fp_le) input) as Hs by (subst input e1 e2; fp_sorted).
    assert (Forall (Forall (fun e => RefsSortedNoDup Z.ltb (Refs e))) input) as Hr.
    { subst input e1 e2.
      repeat first [ apply Forall_nil_2 | apply Forall_cons_2 ]; refs_sorted. }
    assert ([e1] ∈ input) as Hinp by (subst input; left).
    assert (e1 ∈ [e1]) as He by left.
    destruct (Hgen input [] Hs Hr [e1] e1 Hinp He) as (o & Ho & Hfp & _ & Hso & Hu).
    exists o. repeat split; [exact Ho|exact Hfp|apply Hso|apply Hso|apply Hu|apply Hu].
  - exact (Hscen 1 2 3 "t1" "t2" [] eq_refl eq_refl).
Defined.

Lemma mergeSeries_idempotent_witness :
  let L := [mkGroup 1 "t" [1; 2]; mkGroup 2 "t" [3]] in
  Sorted fp_le L /\
  NoDup (map Fingerprint L) /\
  Forall (fun e => RefsSortedNoDup Z.ltb (Refs e)) L /\
  mergeSeries Z.eqb Z.ltb zref_Cmp [L; L] [] = (L, None).
Proof.
  intros L.
  assert (Sorted fp_le L) as Hs by (subst L; fp_sorted).
  assert (NoDup (map Fingerprint L)) as Hn by (subst L; compute_done).
  assert (Forall (fun e => RefsSortedNoDup Z.ltb (Refs e)) L) as Hr.
  { subst L. repeat first [ apply Forall_nil_2 | apply Forall_cons_2 ]; refs_sorted. }
  split; [exact Hs|]. split; [exact Hn|]. split; [exact Hr|].
  exact (proj1 (mergeSeries_idempotent Z Z.eqb Z.ltb zref_Cmp zref_Equal_eq
                  zref_Cmp_Less L [] Hs Hn Hr)).
Defined.

Lemma FilterChunks_routing_error_witness :
  let c : GatewayClient Z unit :=
    mkGatewayClient
      (mkPool
         (fun key => if String.eqb key "block1" then Ok "addr1"
                     else Err (errors_New "empty ring"))
         (fun _ => Err (errors_New "unused"))) in
  let blks := [mkBlockWithSeries "block1" [mkGroup 5 "t" [1]];
               mkBlockWithSeries "block2" [mkGroup 20 "t" [4; 5]]] in
  let s := mkCallState [] 0 [] in
  let run := FilterChunks Z.eqb Z.ltb zref_Cmp zref_getFirstLast c
               (mkContext None) "tenant" (mkInterval 0 10) blks tt s in
  exists pre b post err,
    blks = pre ++ b :: post /\
    Forall (fun b' => exists a, Addr Z unit (pool Z unit c) (block Z b') = Ok a) pre /\
    Addr Z unit (pool Z unit c) (block Z b) = Err err /\
    run = ((None,
            Some (errors_Wrapf err ("server address for block: " +:+ block Z b))),
           mkCallState [] 0 ([] ++ map EvAddr (map (block Z) (pre ++ [b])))) /\
    outbound_requests Z unit (trace run.2) = outbound_requests Z unit [].
Proof.
  intros c blks s run.
  assert (blks <> []) as Hne by (subst blks; discriminate).
  assert (Exists (fun b => exists e,
            Addr Z unit (pool Z unit c) (block Z b) = Err e) blks) as Hex.
  { subst blks c. apply Exists_cons. right. apply Exists_cons. left.
    eexists. reflexivity. }
  exact (FilterChunks_routing_error Z Z.eqb Z.ltb zref_Cmp unit
           zref_getFirstLast c (mkContext None) "tenant" (mkInterval 0 10)
           blks tt s Hne Hex).
Defined.

Lemma FilterChunks_fail_open_witness :
  let g5 := mkGroup 5 "t" [1] in
  let g20 := mkGroup 20 "t" [4; 5] in
  let unavailable := errors_New "unavailable" in
  let gw1 : BloomGatewayClient Z unit := mkClient (fun _ => Ok (mkResponse [g5])) in
  let gw2 : BloomGatewayClient Z unit := mkClient (fun _ => Err unavailable) in
  let c :=
    mkGatewayClient
      (mkPool
         (fun key => if String.eqb key "block1" then Ok "addr1" else Ok "addr2")
         (fun a => if String.eqb a "addr1" then Ok gw1 else Ok gw2)) in
  let blks := [mkBlockWithSeries "block1" [mkGroup 5 "t" [1; 2]];
               mkBlockWithSeries "block2" [g20]] in
  let run := FilterChunks Z.eqb Z.ltb zref_Cmp zref_getFirstLast c
               (mkContext None) "tenant" (mkInterval 0 10) blks tt
               (mkCallState [] 0 []) in
  (exists out s',
     run = ((Some out, None), s') /\
     (exists slot, results s' !! 1%nat = Some slot /\
                   slot ≡ₚ [g20] /\ StronglySorted fp_le slot) /\
     exists o, o ∈ out /\ Fingerprint o = 20 /\
               forall r, r ∈ Refs g20 -> r ∈ Refs o) /\
  run.1 = (Some [g5; g20], None).
Proof.
  intros g5 g20 unavailable gw1 gw2 c blks run.
  pose proof (FilterChunks_fail_open Z Z.eqb Z.ltb zref_Cmp unit
                zref_getFirstLast zref_Equal_eq) as [Hgen Hscen].
  split.
  - set (rs1 := mkAddrWithGroups Z "addr1" ["block1"] [mkGroup 5 "t" [1; 2]]).
    set (rs2 := mkAddrWithGroups Z "addr2" ["block2"] [g20]).
    set (st := mkPartState Z 5 20
                 (<["addr2" := 1%nat]> (<["addr1" := 0%nat]> ∅)) [rs1; rs2]).
    set (s1 := @mkCallState Z unit [] 0 [EvAddr "block1"; EvAddr "block2"]).
    assert (blks <> []) as Hne by (subst blks; discriminate).
    assert (FilterChunks_partition Z unit zref_getFirstLast c blks
              (mkPartState Z math_MaxUint64 0 ∅ []) (mkCallState [] 0 []) =
            (Ok st, s1)) as Hpart by (vm_compute; reflexivity).
    assert (forall rs, rs ∈ servers Z st ->
              exists cl, GetClientFor Z unit (pool Z unit c) (addr Z rs) = Ok cl)
      as Hclients.
    { intros rs Hrs. subst st. cbn [servers] in Hrs.
      apply elem_of_cons in Hrs as [->|Hrs]; [by eexists|].
      apply list_elem_of_singleton in Hrs as ->. by eexists. }
    destruct (Hgen c (mkContext None) "tenant" (mkInterval 0 10) blks tt
                (mkCallState [] 0 []) s1 st Hne eq_refl Hpart Hclients)
      as (out & s' & Hrun & _ & Hslots).
    exists out, s'. split; [exact Hrun|].
    destruct (Hslots 1%nat rs2 gw2 unavailable eq_refl eq_refl eq_refl)
      as [Hslot Hcov].
    split; [exact Hslot|]. apply (Hcov g20). left.
  - exact (Hscen 1 4 5 "t" "t" [mkGroup 5 "t" [1; 2]] unavailable "tenant"
             (mkInterval 0 10) tt (mkCallState [] 0 [])).
Defined.

(** *** The further properties at work *)

Ltac zref_laws :=
  first [ exact zref_Equal_eq | exact zref_Less_irrefl | exact zref_Less_trans
        | exact zref_Less_total | exact zref_Cmp_Less ].

Lemma mergeChunkSets_keeps_inputs_witness :
  let A := [3; 1; 1] in
  let B := [2; 2] in
  A `sublist_of` mergeChunkSets Z.eqb Z.ltb A B /\
  B `sublist_of` mergeChunkSets Z.eqb Z.ltb A B.
Proof.
  intros A B.
  exact (mergeChunkSets_keeps_inputs Z Z.eqb Z.ltb zref_Equal_eq A B).
Defined.

Lemma mergeChunkSets_comm_witness :
  let A := [1; 2] in
  let B := [2; 3] in
  RefsSortedNoDup Z.ltb A /\ RefsSortedNoDup Z.ltb B /\
  mergeChunkSets Z.eqb Z.ltb A B = mergeChunkSets Z.eqb Z.ltb B A.
Proof.
  intros A B.
  assert (RefsSortedNoDup Z.ltb A) as HA by (subst A; refs_sorted).
  assert (RefsSortedNoDup Z.ltb B) as HB by (subst B; refs_sorted).
  split; [exact HA|]. split; [exact HB|].
  exact (mergeChunkSets_comm Z Z.eqb Z.ltb zref_Equal_eq zref_Less_irrefl
           zref_Less_trans zref_Less_total A B HA HB).
Defined.

Lemma mergeChunkSets_assoc_witness :
  let A := [1; 4] in
  let B := [2; 4] in
  let C := [3] in
  RefsSortedNoDup Z.ltb A /\ RefsSortedNoDup Z.ltb B /\ RefsSortedNoDup Z.ltb C /\
  mergeChunkSets Z.eqb Z.ltb A (mergeChunkSets Z.eqb Z.ltb B C) =
    mergeChunkSets Z.eqb Z.ltb (mergeChunkSets Z.eqb Z.ltb A B) C.
Proof.
  intros A B C.
  assert (RefsSortedNoDup Z.ltb A) as HA by (subst A; refs_sorted).
  assert (RefsSortedNoDup Z.ltb B) as HB by (subst B; refs_sorted).
  assert (RefsSortedNoDup Z.ltb C) as HC by (subst C; refs_sorted).
  split; [exact HA|]. split; [exact HB|]. split; [exact HC|].
  exact (mergeChunkSets_assoc Z Z.eqb Z.ltb zref_Equal_eq zref_Less_irrefl
           zref_Less_trans zref_Less_total A B C HA HB HC).
Defined.

Lemma mergeChunkSets_absorb_witness :
  let A := [2] in
  let B := [1; 2; 3] in
  RefsSortedNoDup Z.ltb A /\ RefsSortedNoDup Z.ltb B /\
  (forall x, x ∈ A -> x ∈ B) /\
  mergeChunkSets Z.eqb Z.ltb A B = B /\ mergeChunkSets Z.eqb Z.ltb B A = B.
Proof.
  intros A B.
  assert (RefsSortedNoDup Z.ltb A) as HA by (subst A; refs_sorted).
  assert (RefsSortedNoDup Z.ltb B) as HB by (subst B; refs_sorted).
  assert (forall x, x ∈ A -> x ∈ B) as Hsub.
  { subst A B. intros x Hx. apply list_elem_of_singleton in Hx. subst x.
    right. left. }
  split; [exact HA|]. split; [exact HB|]. split; [exact Hsub|].
  exact (mergeChunkSets_absorb Z Z.eqb Z.ltb zref_Equal_eq zref_Less_irrefl
           zref_Less_trans zref_Less_total A B HA HB Hsub).
Defined.

Lemma mergeSeries_fingerprints_witness :
  let input := [[mkGroup 10 "t1" [2; 1]]; [mkGroup 10 "t2" [2; 3]; mkGroup 11 "t2" [7]]] in
  (forall f, f ∈ map Fingerprint (mergeSeries Z.eqb Z.ltb zref_Cmp input []).1 <->
             exists inp e, inp ∈ input /\ e ∈ inp /\ Fingerprint e = f) /\
  (length (mergeSeries Z.eqb Z.ltb zref_Cmp input []).1 <= length (concat input))%nat.
Proof.
  intros input.
  exact (mergeSeries_fingerprints Z Z.eqb Z.ltb zref_Cmp zref_Equal_eq input []).
Defined.

Lemma mergeSeries_refs_exact_witness :
  let input := [[mkGroup 10 "t1" [2; 1]]; [mkGroup 10 "t2" [2; 3]; mkGroup 11 "t2" [7]]] in
  let o := mkGroup 10 "t2" [1; 2; 3] in
  o ∈ (mergeSeries Z.eqb Z.ltb zref_Cmp input []).1 /\
  (forall r, r ∈ Refs o <->
     exists inp e, inp ∈ input /\ e ∈ inp /\
                   Fingerprint e = Fingerprint o /\ r ∈ Refs e) /\
  (exists inp e, inp ∈ input /\ e ∈ inp /\
                 Fingerprint e = Fingerprint o /\ Tenant e = Tenant o).
Proof.
  intros input o.
  assert (o ∈ (mergeSeries Z.eqb Z.ltb zref_Cmp input []).1) as Ho
    by (vm_compute; left).
  split; [exact Ho|].
  exact (mergeSeries_refs_exact Z Z.eqb Z.ltb zref_Cmp zref_Equal_eq input [] o Ho).
Defined.

Lemma mergeSeries_pass_through_witness :
  let e := mkGroup 11 "t2" [7; 3; 7] in
  let inp := [mkGroup 10 "t2" [2; 3]; e] in
  let input := [[mkGroup 10 "t1" [2; 1]]; inp] in
  e ∈ (mergeSeries Z.eqb Z.ltb zref_Cmp input []).1.
Proof.
  intros e inp input.
  assert (inp ∈ input) as Hinp by (subst input; right; left).
  assert (e ∈ inp) as He by (subst inp; right; left).
  assert (length (filter (fun e' => Fingerprint e' = Fingerprint e)
                         (concat input)) = 1%nat) as Hone by (vm_compute; reflexivity).
  exact (mergeSeries_pass_through Z Z.eqb Z.ltb zref_Cmp input [] inp e Hinp He Hone).
Defined.

Lemma mergeSeries_merged_sorted_witness :
  let input := [[mkGroup 10 "t1" [2; 1]]; [mkGroup 10 "t2" [3; 2]]] in
  let o := mkGroup 10 "t2" [1; 2; 3] in
  o ∈ (mergeSeries Z.eqb Z.ltb zref_Cmp input []).1 /\
  ((exists inp, inp ∈ input /\ o ∈ inp) \/
   Sorted (ref_le Z Z.ltb) (Refs o)).
Proof.
  intros input o.
  assert (o ∈ (mergeSeries Z.eqb Z.ltb zref_Cmp input []).1) as Ho
    by (vm_compute; left).
  split; [exact Ho|].
  exact (mergeSeries_merged_sorted Z Z.eqb Z.ltb zref_Cmp zref_Equal_eq
           zref_Less_irrefl zref_Less_trans zref_Less_total zref_Cmp_Less
           input [] o Ho).
Defined.

Lemma mergeSeries_single_strict_witness :
  let L := [mkGroup 1 "t" [2; 1]; mkGroup 2 "t" [3; 3]] in
  Sorted fp_le L /\ NoDup (map Fingerprint L) /\
  mergeSeries Z.eqb Z.ltb zref_Cmp [L] [] = (L, None).
Proof.
  intros L.
  assert (Sorted fp_le L) as Hs by (subst L; fp_sorted).
  assert (NoDup (map Fingerprint L)) as Hn by (subst L; compute_done).
  split; [exact Hs|]. split; [exact Hn|].
  exact (mergeSeries_single_strict Z Z.eqb Z.ltb zref_Cmp L [] Hs Hn).
Defined.

(** Three blocks on two gateways; the second gateway fails every
    request. *)
Definition zrun_client : GatewayClient Z unit :=
  mkGatewayClient
    (mkPool
       (fun key => if String.eqb key "block1" then Ok "addr1" else Ok "addr2")
       (fun a =>
          if String.eqb a "addr1"
          then Ok (mkClient (fun _ => Ok (mkResponse [mkGroup 5 "t" [1]])))
          else Ok (mkClient (fun _ => Err (errors_New "unavailable"))))).

Definition zrun_blocks : list (blockWithSeries Z) :=
  [mkBlockWithSeries "block1" [mkGroup 5 "t" [1; 2]];
   mkBlockWithSeries "block2" [mkGroup 20 "t" [4; 5]];
   mkBlockWithSeries "block3" [mkGroup 7 "t" [9]]].

Definition zrun_servers : list (addrWithGroups Z) :=
  [mkAddrWithGroups Z "addr1" ["block1"] [mkGroup 5 "t" [1; 2]];
   mkAddrWithGroups Z "addr2" ["block2"; "block3"]
     [mkGroup 20 "t" [4; 5]; mkGroup 7 "t" [9]]].

Definition zrun_partState : partState Z :=
  mkPartState Z 5 20 (<["addr2" := 1%nat]> (<["addr1" := 0%nat]> ∅)) zrun_servers.

Definition zrun_start : callState Z unit := mkCallState [] 0 [].

Definition zrun_routed : callState Z unit :=
  mkCallState [] 0 [EvAddr "block1"; EvAddr "block2"; EvAddr "block3"].

Lemma zrun_partition :
  FilterChunks_partition Z unit zref_getFirstLast zrun_client zrun_blocks
    (mkPartState Z math_MaxUint64 0 ∅ []) zrun_start =
  (Ok zrun_partState, zrun_routed).
Proof. vm_compute. reflexivity. Qed.

Lemma zrun_clients :
  forall rs, rs ∈ servers Z zrun_partState ->
    exists cl, GetClientFor Z unit (pool Z unit zrun_client) (addr Z rs) = Ok cl.
Proof.
  intros rs Hrs. cbn [servers zrun_partState] in Hrs. unfold zrun_servers in Hrs.
  apply elem_of_cons in Hrs as [->|Hrs]; [by eexists|].
  apply list_elem_of_singleton in Hrs as ->. by eexists.
Qed.

Lemma zrun_blocks_ne : zrun_blocks <> [].
Proof. discriminate. Qed.

Lemma FilterChunks_partition_exact_witness :
  NoDup (map (addr Z) zrun_servers) /\
  concat (map (blocks Z) zrun_servers) ≡ₚ map (block Z) zrun_blocks /\
  concat (map (groups Z) zrun_servers) ≡ₚ concat (map (series Z) zrun_blocks) /\
  (forall rs b, rs ∈ zrun_servers -> b ∈ blocks Z rs ->
     Addr Z unit (pool Z unit zrun_client) b = Ok (addr Z rs)).
Proof.
  exact (FilterChunks_partition_exact Z unit zref_getFirstLast zrun_client
           zrun_blocks zrun_start zrun_routed zrun_partState zrun_partition).
Defined.

Lemma FilterChunks_requests_witness :
  exists reqs,
    outbound_requests Z unit
      (trace (FilterChunks Z.eqb Z.ltb zref_Cmp zref_getFirstLast zrun_client
                (mkContext None) "tenant" (mkInterval 0 10) zrun_blocks tt
                zrun_start).2) ≡ₚ
      outbound_requests Z unit (trace zrun_start) ++ reqs /\
    Forall2 (fun rs req =>
               From Z unit req = 0 /\ Through Z unit req = 10 /\
               Plan Z unit req = tt /\ Blocks Z unit req = blocks Z rs /\
               ReqRefs Z unit req ≡ₚ groups Z rs /\
               StronglySorted fp_le (ReqRefs Z unit req))
            zrun_servers reqs.
Proof.
  exact (FilterChunks_requests Z Z.eqb Z.ltb zref_Cmp unit zref_getFirstLast
           zrun_client (mkContext None) "tenant" (mkInterval 0 10) zrun_blocks tt
           zrun_start zrun_routed zrun_partState zrun_blocks_ne eq_refl
           zrun_partition zrun_clients).
Defined.

Lemma FilterChunks_outcomes_witness :
  let tr := trace (FilterChunks Z.eqb Z.ltb zref_Cmp zref_getFirstLast zrun_client
                     (mkContext None) "tenant" (mkInterval 0 10) zrun_blocks tt
                     zrun_start).2 in
  clientRequests Z unit typeError tr =
    (clientRequests Z unit typeError (trace zrun_start) +
     length (filter (fun rs => shard_failed Z unit zrun_client (mkInterval 0 10) tt rs = true)
                    zrun_servers))%nat /\
  (clientRequests Z unit typeSuccess tr + clientRequests Z unit typeError tr =
   clientRequests Z unit typeSuccess (trace zrun_start) +
   clientRequests Z unit typeError (trace zrun_start) + length zrun_servers)%nat.
Proof.
  exact (FilterChunks_outcomes Z Z.eqb Z.ltb zref_Cmp unit zref_getFirstLast
           zrun_client (mkContext None) "tenant" (mkInterval 0 10) zrun_blocks tt
           zrun_start zrun_routed zrun_partState zrun_blocks_ne eq_refl
           zrun_partition zrun_clients).
Defined.

Lemma FilterChunks_count_witness :
  exists out s',
    FilterChunks Z.eqb Z.ltb zref_Cmp zref_getFirstLast zrun_client
      (mkContext None) "tenant" (mkInterval 0 10) zrun_blocks tt zrun_start =
      ((Some out, None), s') /\
    count Z unit s' = Z.of_nat (length (concat (results s'))) /\
    Z.of_nat (length out) <= count Z unit s'.
Proof.
  exact (FilterChunks_count Z Z.eqb Z.ltb zref_Cmp unit zref_getFirstLast
           zrun_client (mkContext None) "tenant" (mkInterval 0 10) zrun_blocks tt
           zrun_start zrun_routed zrun_partState zrun_blocks_ne eq_refl
           zrun_partition zrun_clients).
Defined.

(** What the call on these blocks returns, evaluated. *)
Definition zrun_result :
    option (list (GroupedChunkRefs Z)) * option error * callState Z unit :=
  Eval vm_compute in
    FilterChunks Z.eqb Z.ltb zref_Cmp zref_getFirstLast zrun_client
      (mkContext None) "tenant" (mkInterval 0 10) zrun_blocks tt zrun_start.

Lemma zrun_result_eq :
  FilterChunks Z.eqb Z.ltb zref_Cmp zref_getFirstLast zrun_client
    (mkContext None) "tenant" (mkInterval 0 10) zrun_blocks tt zrun_start =
  ((Some [mkGroup 5 "t" [1]; mkGroup 7 "t" [9]; mkGroup 20 "t" [4; 5]], None),
   zrun_result.2).
Proof. vm_compute. reflexivity. Qed.

Lemma FilterChunks_result_sorted_witness :
  let out := [mkGroup 5 "t" [1]; mkGroup 7 "t" [9]; mkGroup 20 "t" [4; 5]] in
  StronglySorted fp_lt out /\ NoDup (map Fingerprint out).
Proof.
  intros out.
  exact (proj2 (FilterChunks_result_sorted Z Z.eqb Z.ltb zref_Cmp unit
                  zref_getFirstLast zrun_client (mkContext None) "tenant"
                  (mkInterval 0 10) zrun_blocks tt zrun_start zrun_result.2
                  out None zrun_result_eq)).
Defined.

Lemma FilterChunks_nil_iff_witness :
  let out := Some [mkGroup 5 "t" [1]; mkGroup 7 "t" [9]; mkGroup 20 "t" [4; 5]] in
  (out = None <-> zrun_blocks = [] \/ (None : option error) <> None) /\
  (zrun_blocks = [] -> (None : option error) = None).
Proof.
  intros out.
  exact (FilterChunks_nil_iff Z Z.eqb Z.ltb zref_Cmp unit
           zref_getFirstLast zrun_client (mkContext None) "tenant"
           (mkInterval 0 10) zrun_blocks tt zrun_start zrun_result.2
           out None zrun_result_eq).
Defined.

Lemma doForAddrs_no_client_witness :
  let c : GatewayClient Z unit :=
    mkGatewayClient
      (mkPool (fun _ => Ok "unused")
              (fun a => Err (errors_New ("no client for " +:+ a)))) in
  let addrs := ["addr1"; "addr2"] in
  let errs := [errors_New "no client for addr1"; errors_New "no client for addr2"] in
  doForAddrs Z unit c addrs (fun _ => ret Z unit None) zrun_start =
    (last errs,
     mkCallState [] 0
       ([] ++
        concat (map (fun a => [EvGetClientFor Z unit a;
                               EvLogError Z unit "failed to get client for instance" a])
                    addrs))).
Proof.
  intros c addrs errs.
  assert (Forall2 (fun a e => GetClientFor Z unit (pool Z unit c) a = Err e)
                  addrs errs) as Hall.
  { subst c addrs errs. repeat constructor. }
  exact (doForAddrs_no_client Z unit c addrs errs (fun _ => ret Z unit None)
           zrun_start Hall).
Defined.

Lemma doForAddrs_app_witness :
  let c := zrun_client in
  let fn : BloomGatewayClient Z unit -> M Z unit (option error) :=
    fun client =>
      match FilterChunkRefs Z unit client (mkRequest Z unit 0 10 [] [] tt) with
      | Ok _ => ret Z unit None
      | Err e => ret Z unit (Some e)
      end in
  let s1 : callState Z unit := mkCallState [] 0 [EvGetClientFor Z unit "addr1"] in
  let s2 : callState Z unit :=
    mkCallState [] 0
      [EvGetClientFor Z unit "addr2";
       EvLogError Z unit "client do failed for instance" "addr2"] in
  doForAddrs Z unit c (["addr1"] ++ ["addr2"]) fn zrun_start = (None, s1) /\
  doForAddrs Z unit c (["addr2"] ++ ["addr1"]) fn zrun_start =
    doForAddrs Z unit c ["addr1"] fn s2.
Proof.
  intros c fn s1 s2.
  assert (["addr1"] <> []) as Hne1 by discriminate.
  assert (["addr2"] <> []) as Hne2 by discriminate.
  split.
  - exact (proj1 (doForAddrs_app Z unit c ["addr1"] ["addr2"] fn zrun_start s1 Hne1)
             eq_refl).
  - exact (proj2 (doForAddrs_app Z unit c ["addr2"] ["addr1"] fn zrun_start s2 Hne2)
             (errors_New "unavailable") Hne1 eq_refl).
Defined.
